(** * RCON client (src/rcon.ts): wire codec, stream reassembly, request
      multiplexing and connection teardown.

    The development follows the class [Rcon] of src/rcon.ts.  Typed arrays are
    modelled as views over an [ArrayBuffer], because [readChunk] reads the
    length prefix through [new DataView(data.buffer)], that is from the
    underlying buffer and not from the view.  Promises live in two stores
    (one for the [Promise<void>] of the authentication handshake, one for
    the [Promise<string>] handed to the callers of [send]); the connection
    state refers to them by handle. *)

From Stdlib Require Import ZArith Lia.
From Stdlib Require Import Strings.Byte.
From stdpp Require Import base option list gmap strings fin_maps.

Local Open Scope Z_scope.

(** ** Bytes and 32-bit integers *)

Module Bytes.

Definition Z_of_byte (b : byte) : Z := Z.of_N (Byte.to_N b).

Definition byte_of_Z (z : Z) : byte :=
  match Byte.of_N (Z.to_N (z mod 256)) with
  | Some b => b
  | None => x00
  end.

(** ECMAScript [ToInt32]: reduction modulo 2^32 into the signed range. *)
Definition toInt32 (z : Z) : Z := (z + 2 ^ 31) mod 2 ^ 32 - 2 ^ 31.

(** ECMAScript [ToInt16], used by [DataView.prototype.setInt16]. *)
Definition toInt16 (z : Z) : Z := (z + 2 ^ 15) mod 2 ^ 16 - 2 ^ 15.

Definition is_int32 (z : Z) : Prop := - 2 ^ 31 <= z < 2 ^ 31.

(** The four bytes of a 32-bit value, least significant first. *)
Definition int32_le (z : Z) : list byte :=
  [ byte_of_Z z; byte_of_Z (z / 2 ^ 8); byte_of_Z (z / 2 ^ 16);
    byte_of_Z (z / 2 ^ 24) ].

Definition int16_le (z : Z) : list byte :=
  [ byte_of_Z z; byte_of_Z (z / 2 ^ 8) ].

(** The signed value of four little-endian bytes. *)
Definition int32_of_le (b0 b1 b2 b3 : byte) : Z :=
  toInt32 (Z_of_byte b0 + 2 ^ 8 * Z_of_byte b1 + 2 ^ 16 * Z_of_byte b2
           + 2 ^ 24 * Z_of_byte b3).

End Bytes.
Export Bytes.

(** ** ArrayBuffer, DataView and Uint8Array *)

Inductive JsError : Type :=
  | BadIpException
  | BadRconPasswordException
  | RconConnectionClosedException
  | Error (message : string)
  | RangeError
  | TypeError
  | TransportError (name : string).

#[local] Instance JsError_eq_dec : EqDecision JsError.
Proof. solve_decision. Defined.

Module DataView.

(** [new DataView(buffer).getInt32(off, true)]: a [RangeError] ([None])
    when the four bytes do not lie inside the buffer. *)
Definition getInt32 (buffer : list byte) (off : nat) : option Z :=
  match drop off buffer with
  | b0 :: b1 :: b2 :: b3 :: _ => Some (int32_of_le b0 b1 b2 b3)
  | _ => None
  end.

(** Overwrite [length src] bytes of [buffer] from offset [off]; out of
    range is a [RangeError].  This is the common core of
    [DataView.prototype.setInt32], [setInt16] and
    [Uint8Array.prototype.set]. *)
Definition write (buffer : list byte) (off : nat) (src : list byte)
  : option (list byte) :=
  if decide (off + length src ≤ length buffer)%nat
  then Some (take off buffer ++ src ++ drop (off + length src) buffer)
  else None.

Definition setInt32 (buffer : list byte) (off : nat) (v : Z) :=
  write buffer off (int32_le (toInt32 v)).

Definition setInt16 (buffer : list byte) (off : nat) (v : Z) :=
  write buffer off (int16_le (toInt16 v)).

End DataView.

Module Uint8Array.

(** A typed array is a window of [length] bytes starting at [byteOffset]
    of its [buffer]. *)
Record t : Type := mk {
  buffer : list byte;
  byteOffset : nat;
  length : nat
}.

Definition contents (a : t) : list byte :=
  take (length a) (drop (byteOffset a) (buffer a)).

(** [new Uint8Array(bytes)], and the result of [slice] and [concat]: a
    fresh buffer that holds exactly the elements. *)
Definition of_list (l : list byte) : t :=
  {| buffer := l; byteOffset := 0; length := List.length l |}.

(** Relative index of [Array.prototype.slice]: negative counts from the
    end, and the result is clamped to the length. *)
Definition rel_index (k len : Z) : Z :=
  if k <? 0 then Z.max (len + k) 0 else Z.min k len.

(** [a.slice(b, e)] on the elements. *)
Definition slice_list (l : list byte) (b e : Z) : list byte :=
  let len := Z.of_nat (List.length l) in
  let k := rel_index b len in
  let final := rel_index e len in
  take (Z.to_nat (final - k)) (drop (Z.to_nat k) l).

(** [a.slice(b)]: the end defaults to the length. *)
Definition slice_from (l : list byte) (b : Z) : list byte :=
  slice_list l b (Z.of_nat (List.length l)).

(** [target.set(src, off)]. *)
Definition set (target : list byte) (src : list byte) (off : nat) :=
  DataView.write target off src.

(** [equals(a, b)] of std/bytes: same length and same elements. *)
Fixpoint equals (a b : list byte) : bool :=
  match a, b with
  | [], [] => true
  | x :: a', y :: b' => Byte.eqb x y && equals a' b'
  | _, _ => false
  end.

End Uint8Array.

(** ** Promises *)

Inductive Promise (V : Type) : Type :=
  | Pending
  | Fulfilled (v : V)
  | Rejected (e : JsError).
Arguments Pending {V}.
Arguments Fulfilled {V} v.
Arguments Rejected {V} e.

(** Calling the [resolve] or [reject] function of a promise settles it
    only while it is pending; later calls do nothing. *)
Definition resolveP {V} (v : V) (p : Promise V) : Promise V :=
  match p with Pending => Fulfilled v | _ => p end.

Definition rejectP {V} (e : JsError) (p : Promise V) : Promise V :=
  match p with Pending => Rejected e | _ => p end.

(** ** Constants of src/rcon.ts *)

Definition FrameBuffer : list byte := [x00; x01; x00; x00].

Module PacketType.
Definition COMMAND : Z := 0x02.
Definition AUTH : Z := 0x03.
Definition RESPONSE_VALUE : Z := 0x00.
Definition RESPONSE_AUTH : Z := 0x02.
End PacketType.

(** [class Request]: the accumulated response bytes, and the promise
    whose [resolve] and [reject] functions the request holds. *)
Record Request : Type := mkRequest {
  data : list byte;
  promise : nat
}.

(** How one run of the [while] loop of [readChunk] ends. *)
Inductive LoopEnd : Type :=
  | EndOfData                       (* [data.length] is 0 *)
  | ZeroLength                      (* [if (!len) return] *)
  | Incomplete (kept : list byte)   (* the [else] branch, then [break] *)
  | Thrown (e : JsError)            (* an exception leaves the loop *)
  | OutOfFuel.

(** A decoded packet, as the three locals [id], [type] and [payload]. *)
Record Packet : Type := mkPacket {
  pid : Z;
  ptype : Z;
  ppayload : list byte
}.

Section ReadLoop.
Context {S : Type}.
(** What is done with a decoded packet (lines 150 to 170 for [Rcon]). *)
Variable handle : Z → Z → list byte → S → S.

(** The [while (data.length)] loop of [readChunk].  Every iteration that
    continues drops at least 14 bytes, so [fuel] above the length of
    [data] is never used up (see [readLoop_fuel]). *)
Fixpoint readLoop (fuel : nat) (data : Uint8Array.t) (s : S)
  : S * LoopEnd :=
  match fuel with
  | O => (s, OutOfFuel)
  | Datatypes.S fuel' =>
    if (Uint8Array.length data =? 0)%nat then (s, EndOfData) else
    match DataView.getInt32 (Uint8Array.buffer data) 0 with
    | None => (s, Thrown RangeError)
    | Some len =>
      if len =? 0 then (s, ZeroLength) else
      if (10 <=? len) && (len + 4 <=? Z.of_nat (Uint8Array.length data))
      then
        match DataView.getInt32 (Uint8Array.buffer data) 4,
              DataView.getInt32 (Uint8Array.buffer data) 8 with
        | Some id, Some type =>
          let payload :=
            Uint8Array.slice_list (Uint8Array.contents data)
                                  12 (12 + len - 10) in
          let s' := handle id type payload s in
          readLoop fuel'
            (Uint8Array.of_list
               (Uint8Array.slice_from (Uint8Array.contents data) (4 + len)))
            s'
        | _, _ => (s, Thrown RangeError)
        end
      else (s, Incomplete (Uint8Array.contents data))
    end
  end.
End ReadLoop.

(** The loop run only to list the packets it hands over, in order. *)
Definition decodedPackets (data : Uint8Array.t) : list Packet * LoopEnd :=
  readLoop (λ id type payload acc, acc ++ [mkPacket id type payload])
           (Datatypes.S (Uint8Array.length data)) data [].

(** ** The connection object *)

Section Rcon.
(** JavaScript strings with the platform's UTF-8 codec. *)
Context {JsString : Type}.
Variable TextEncoder_encode : JsString → list byte.
Variable TextDecoder_decode : list byte → JsString.
(** The empty string literal. *)
Variable empty_string : JsString.

(** [class Rcon].  [authed] and [conn] are optional references, to a
    [ResolvablePromise] of [authPromises] and to a transport; a
    [Request] refers to its promise in [cmdPromises]. *)
Record Rcon : Type := mkRcon {
  authed : option nat;
  conn : option nat;
  outstandingData : option (list byte);
  requests : gmap Z Request;
  authPromises : list (Promise unit);
  cmdPromises : list (Promise JsString)
}.

Definition set_authed (v : option nat) (st : Rcon) : Rcon :=
  mkRcon v (conn st) (outstandingData st) (requests st)
         (authPromises st) (cmdPromises st).
Definition set_conn (v : option nat) (st : Rcon) : Rcon :=
  mkRcon (authed st) v (outstandingData st) (requests st)
         (authPromises st) (cmdPromises st).
Definition set_outstandingData (v : option (list byte)) (st : Rcon) : Rcon :=
  mkRcon (authed st) (conn st) v (requests st)
         (authPromises st) (cmdPromises st).
Definition set_requests (v : gmap Z Request) (st : Rcon) : Rcon :=
  mkRcon (authed st) (conn st) (outstandingData st) v
         (authPromises st) (cmdPromises st).
Definition set_authPromises (v : list (Promise unit)) (st : Rcon) : Rcon :=
  mkRcon (authed st) (conn st) (outstandingData st) (requests st)
         v (cmdPromises st).
Definition set_cmdPromises (v : list (Promise JsString)) (st : Rcon) : Rcon :=
  mkRcon (authed st) (conn st) (outstandingData st) (requests st)
         (authPromises st) v.

(** [this.authed?.resolve()] *)
Definition authed_resolve (st : Rcon) : Rcon :=
  match authed st with
  | Some a => set_authPromises (alter (resolveP ()) a (authPromises st)) st
  | None => st
  end.

(** [this.authed?.reject(e)] *)
Definition authed_reject (e : JsError) (st : Rcon) : Rcon :=
  match authed st with
  | Some a => set_authPromises (alter (rejectP e) a (authPromises st)) st
  | None => st
  end.

(** [request.resolve(str)] and [request.reject(e)] *)
Definition request_resolve (request : Request) (str : JsString) (st : Rcon)
  : Rcon :=
  set_cmdPromises (alter (resolveP str) (promise request) (cmdPromises st)) st.

Definition request_reject (request : Request) (e : JsError) (st : Rcon)
  : Rcon :=
  set_cmdPromises (alter (rejectP e) (promise request) (cmdPromises st)) st.

(** Lines 150 to 170 of [readChunk]: routing of one decoded packet. *)
Definition dispatch (id type : Z) (payload : list byte) (st : Rcon) : Rcon :=
  if negb (id =? -1) then
    if (type =? PacketType.RESPONSE_AUTH) && (id =? 0) then
      authed_resolve st
    else if type =? PacketType.RESPONSE_VALUE then
      match requests st !! id with
      | Some request =>
        if Uint8Array.equals FrameBuffer payload then
          let str := TextDecoder_decode (data request) in
          set_requests (delete id (requests st))
                       (request_resolve request str st)
        else
          set_requests
            (<[id := mkRequest (data request ++ payload) (promise request)]>
               (requests st))
            st
      | None => st
      end
    else st
  else
    authed_reject BadRconPasswordException st.

(** Routing of several decoded packets, one after the other. *)
Definition dispatchAll (packets : list Packet) (st : Rcon) : Rcon :=
  foldl (λ st p, dispatch (pid p) (ptype p) (ppayload p) st) st packets.

(** The first statement of [readChunk]: carried-over bytes are put in
    front of the chunk, in a new array, and the carry-over is cleared. *)
Definition takeOutstanding (data : Uint8Array.t) (st : Rcon)
  : Uint8Array.t * Rcon :=
  match outstandingData st with
  | Some od =>
    (Uint8Array.of_list (od ++ Uint8Array.contents data),
     set_outstandingData None st)
  | None => (data, st)
  end.

(** [readChunk(data)]: the state afterwards, and the exception if one
    was thrown. *)
Definition readChunk (data : Uint8Array.t) (st : Rcon)
  : Rcon * option JsError :=
  let '(data, st) := takeOutstanding data st in
  match readLoop dispatch (Datatypes.S (Uint8Array.length data)) data st with
  | (st', Incomplete kept) => (set_outstandingData (Some kept) st', None)
  | (st', Thrown e) => (st', Some e)
  | (st', _) => (st', None)
  end.

(** [this.requests.forEach((request) => request.reject(e))] *)
Definition reject_all (e : JsError) (st : Rcon) : Rcon :=
  foldr (λ kr acc, request_reject kr.2 e acc) st
        (map_to_list (requests st)).

(** The body of the [for await] of [read]: chunks are read until one
    throws. *)
Fixpoint feed (chunks : list Uint8Array.t) (st : Rcon)
  : Rcon * option JsError :=
  match chunks with
  | [] => (st, None)
  | chunk :: rest =>
    match readChunk chunk st with
    | (st', Some e) => (st', Some e)
    | (st', None) => feed rest st'
    end
  end.

(** The [finally] block of [read], for the transport [c] the loop was
    started on. *)
Definition read_finally (c : option nat) (st : Rcon) : Rcon :=
  if decide (conn st = c) then
    let st1 := set_conn None st in
    let st2 := authed_reject RconConnectionClosedException st1 in
    let st3 := set_authed None st2 in
    let st4 := reject_all RconConnectionClosedException st3 in
    set_requests ∅ st4
  else st.

(** [read()], run on the chunks the transport yields until its end.
    Without a transport the iteration itself throws. *)
Definition read (chunks : list Uint8Array.t) (st : Rcon)
  : Rcon * option JsError :=
  let c := conn st in
  let '(st', err) :=
    match c with
    | Some _ => feed chunks st
    | None => (st, Some TypeError)
    end in
  (read_finally c st', err).

(** [disconnect()] *)
Definition disconnect (st : Rcon) : Rcon :=
  let st1 := set_conn None st in
  let st2 := set_authed None st1 in
  let st3 := reject_all (Error "read EOF") st2 in
  set_requests ∅ st3.

(** [sendData(id, data, packetType)] up to the write: the frame built
    in [sendBuffer], or the [RangeError] of a write outside it. *)
Definition sendData_buffer (id : list byte) (data : JsString)
    (packetType : Z) : option (list byte) :=
  let dataBuffer := TextEncoder_encode data in
  let dataLength := List.length dataBuffer in
  let sendBuffer := replicate (dataLength + 14) x00 in
  sendBuffer ← DataView.setInt32 sendBuffer 0 (Z.of_nat dataLength + 10);
  sendBuffer ← Uint8Array.set sendBuffer id 4;
  sendBuffer ← DataView.setInt32 sendBuffer 8 packetType;
  sendBuffer ← Uint8Array.set sendBuffer dataBuffer 12;
  DataView.setInt16 sendBuffer (dataLength + 12) 0.

(** [sendData]: [write] is the outcome of [conn.write] on the frame
    ([None] when it succeeds); without a transport nothing is written.
    The result is the exception [sendData] rejects with, if any. *)
Definition sendData (id : list byte) (data : JsString) (packetType : Z)
    (write : list byte → option JsError) (st : Rcon) : option JsError :=
  match sendData_buffer id data packetType with
  | None => Some RangeError
  | Some sendBuffer =>
    match conn st with
    | Some _ => write sendBuffer
    | None => None
    end
  end.

(** [send], the synchronous step after [await this.connect()]: [id] are
    the four bytes of [crypto.getRandomValues]; the promise for the
    caller is created and the request registered.  The result is the
    handle of [sendPromise], [idNumber] and the new state; a [RangeError]
    when [id] has fewer than four bytes. *)
Definition send_register (id : list byte) (st : Rcon)
  : option (nat * Z * Rcon) :=
  idNumber ← DataView.getInt32 id 0;
  let sendPromise := List.length (cmdPromises st) in
  let st1 := set_cmdPromises (cmdPromises st ++ [Pending]) st in
  Some (sendPromise, idNumber,
        set_requests (<[idNumber := mkRequest [] sendPromise]> (requests st1))
                     st1).

(** The [catch] block of [send]: [this.requests.get(idNumber)?.reject(e)] *)
Definition send_catch (idNumber : Z) (e : JsError) (st : Rcon) : Rcon :=
  match requests st !! idNumber with
  | Some request => request_reject request e st
  | None => st
  end.

(** [send(data, packetType)] after [await this.connect()], with the two
    writes of the [try] block answered by [write1] and [write2], and no
    other step of the connection in between ([send_catch] alone covers
    the [catch] block that runs later, on any state). *)
Definition send (id : list byte) (data : JsString) (packetType : Z)
    (write1 write2 : list byte → option JsError) (st : Rcon)
  : option (nat * Rcon) :=
  '(sendPromise, idNumber, st1) ← send_register id st;
  match sendData id data packetType write1 st1 with
  | Some e => Some (sendPromise, send_catch idNumber e st1)
  | None =>
    match sendData id empty_string PacketType.RESPONSE_VALUE write2 st1 with
    | Some e => Some (sendPromise, send_catch idNumber e st1)
    | None => Some (sendPromise, st1)
    end
  end.

End Rcon.

(** ** The transport reader *)

(** [iterateReader(conn)] of std/streams (conversion.ts): one buffer [b] of
    [bufSize] bytes is allocated, every read overwrites its beginning, and
    each chunk is [b.subarray(0, n)], a view of that same buffer.  [reads]
    are the byte blocks the transport delivers, read by read. *)
Definition DEFAULT_BUFFER_SIZE : nat := 32 * 1024.

Fixpoint iterateReader_from (b : list byte) (reads : list (list byte))
  : list Uint8Array.t :=
  match reads with
  | [] => []
  | r :: reads' =>
    let r := take (length b) r in
    let b' := r ++ drop (length r) b in
    Uint8Array.mk b' 0 (length r) :: iterateReader_from b' reads'
  end.

Definition iterateReader (bufSize : nat) (reads : list (list byte))
  : list Uint8Array.t :=
  iterateReader_from (replicate bufSize x00) reads.


(** ** Frames on the wire *)

(** A complete frame: length field, id, type, payload and two closing
    bytes, as [sendData] lays it out ([sendData_buffer_eq] below). *)
Definition frame (id : list byte) (packetType : Z) (payload : list byte)
  : list byte :=
  int32_le (toInt32 (Z.of_nat (length payload) + 10)) ++ id
  ++ int32_le (toInt32 packetType) ++ payload ++ [x00; x00].

(** The frame that carries a packet, and the packets that fit the wire
    format: id and type in the 32-bit signed range, length field too. *)
Definition frame_of_packet (p : Packet) : list byte :=
  frame (int32_le (pid p)) (ptype p) (ppayload p).

Definition wf_packet (p : Packet) : Prop :=
  is_int32 (pid p) ∧ is_int32 (ptype p)
  ∧ Z.of_nat (length (ppayload p)) + 10 < 2 ^ 31.

(** ** Connecting and sending a command *)

(** How an [async] method ends: it returns, it returns a promise of the
    authentication store and so settles as that one does, or it throws. *)
Inductive Completion : Type :=
  | Returns
  | Awaits (a : nat)
  | Throws (e : JsError).

(** The [catch] block of [connect]: [Deno.errors.ConnectionRefused] and
    [Deno.errors.ConnectionReset] become [BadIpException], anything else
    is thrown again. *)
Definition connect_catch (err : JsError) : JsError :=
  match err with
  | TransportError name =>
    if String.eqb name "ConnectionRefused" || String.eqb name "ConnectionReset"
    then BadIpException else err
  | _ => err
  end.

(** What [await this.connect()] and the [await] of the caller's promise
    give back to [sendCmd] and to its caller. *)
Inductive SendOutcome : Type :=
  | Sent (sendPromise : nat)
  | SendWaits (a : nat)
  | SendThrows (e : JsError).

Section Client.
Context {JsString : Type}.
Variable TextEncoder_encode : JsString → list byte.
Variable empty_string : JsString.

(** [new Rcon(host, port, password)]: the field initialisers. *)
Definition Rcon_new : @Rcon JsString := mkRcon None None None ∅ [] [].

(** [connect()].  [dial] is the outcome of [Deno.connect] (a transport or
    the exception), [write] that of writing the AUTH packet.  The read loop
    that [connect] starts runs on its own ([read]). *)
Definition connect (password : JsString) (dial : nat + JsError)
    (write : list byte → option JsError) (st : @Rcon JsString)
  : @Rcon JsString * Completion :=
  match conn st with
  | Some _ =>
    (st, match authed st with Some a => Awaits a | None => Returns end)
  | None =>
    let st1 :=
      set_authed (Some (length (authPromises st)))
        (set_authPromises (authPromises st ++ [Pending]) st) in
    match dial with
    | inr err => (st1, Throws (connect_catch err))
    | inl c =>
      let st2 := set_conn (Some c) st1 in
      match sendData TextEncoder_encode [x00; x00; x00; x00] password
              PacketType.AUTH write st2 with
      | Some err => (st2, Throws (connect_catch err))
      | None => (st2, Returns)
      end
    end
  end.

(** [sendCmd(cmd)], that is [send(cmd, PacketType.COMMAND)] with its
    [await this.connect()]: an exception of [connect] or a rejected
    authentication promise is thrown on, a pending one suspends the call,
    and otherwise the command is registered and written ([send]). *)
Definition sendCmd (password : JsString) (dial : nat + JsError)
    (writeAuth : list byte → option JsError)
    (id : list byte) (cmd : JsString)
    (write1 write2 : list byte → option JsError) (st : @Rcon JsString)
  : @Rcon JsString * SendOutcome :=
  let go st1 :=
    match send TextEncoder_encode empty_string id cmd PacketType.COMMAND
            write1 write2 st1 with
    | Some (sendPromise, st2) => (st2, Sent sendPromise)
    | None => (st1, SendThrows RangeError)
    end in
  match connect password dial writeAuth st with
  | (st1, Throws e) => (st1, SendThrows e)
  | (st1, Returns) => go st1
  | (st1, Awaits a) =>
    match authPromises st1 !! a with
    | Some (Fulfilled _) => go st1
    | Some (Rejected e) => (st1, SendThrows e)
    | _ => (st1, SendWaits a)
    end
  end.
End Client.

(** ** The HTTP endpoint (src/unnamed/part_000) *)

(** [err.message] as the constructors of the three exception classes of
    src/rcon.ts and [new Error(message)] set it; the message of the other
    errors is the platform's and is not used. *)
Definition message (e : JsError) : string :=
  match e with
  | BadIpException => "Failed to resolve IP"
  | BadRconPasswordException => "Provided RCON password is incorrect"
  | RconConnectionClosedException =>
    "RCON server connection closed unexpectedly"
  | Error m => m
  | _ => ""
  end.

(** The second argument of [new Response] and of [json]. *)
Record ResponseInit : Type := mkInit {
  status : option Z;
  headers : option (list (string * string))
}.

(** [getHeaders()]: the three CORS headers. *)
Definition getHeaders : list (string * string) :=
  [ ("Access-Control-Allow-Origin", "*");
    ("Access-Control-Allow-Methods", "POST");
    ("Access-Control-Allow-Headers", "Content-Type") ].

Section Http.
Context {JsString : Type}.
(** [String.prototype.toUpperCase] *)
Variable toUpperCase : string → string.

(** The objects handed to [json]. *)
Inductive JsonValue : Type :=
  | CommandResult (statusCode : Z) (response : JsString)
  | Failure (statusCode : Z) (message : string) (error : string)
  | ValidationFailure (error : string).

(** A response, by the call that builds it. *)
Inductive Response : Type :=
  | NewResponse (body : string) (init : ResponseInit)
  | json (jsobj : JsonValue) (init : ResponseInit).

(** [RconRequestDto], by the fields [home] reads. *)
Record RconRequestDto : Type := mkDto {
  ip : JsString;
  port : option Z;
  password : JsString;
  command : JsString
}.

(** What [validateRequest] gives: its object with an optional [error]
    (message and status) and the body, or an exception. *)
Inductive Validated : Type :=
  | Checked (error : option (string * Z)) (body : RconRequestDto)
  | ValidateThrows (e : JsError).

(** [validateBody(req)]: the body, or the response it throws.  The
    response thrown inside the [try] block is caught by the [catch] of the
    same statement. *)
Definition validateBody (v : Validated) : RconRequestDto + Response :=
  let tried : RconRequestDto + (Response + JsError) :=
    match v with
    | Checked (Some (msg, st)) _ =>
      inr (inl (json (ValidationFailure msg) (mkInit (Some st) None)))
    | Checked None body => inl body
    | ValidateThrows e => inr (inr e)
    end in
  match tried with
  | inl body => inl body
  | inr _err =>
    inr (json (Failure 400 "Body must be present" "Bad Request")
              (mkInit None None))
  end.

(** [home(req)]: [method] is [req.method], [v] what [validateRequest]
    gives, and [run ip port password command] how the promise of
    [new Rcon(ip, port, password).sendCmd(command)] ends.  The result is
    the response, or none while that promise is pending. *)
Definition home (method : string) (v : Validated)
    (run : JsString → Z → JsString → JsString → Promise JsString)
  : option Response :=
  if String.eqb (toUpperCase method) "OPTIONS" then
    Some (NewResponse "OK" (mkInit (Some 200) (Some getHeaders)))
  else
    match validateBody v with
    | inr err => Some err
    | inl body =>
      match run (ip body) (default 27015 (port body)) (password body)
                (command body) with
      | Pending => None
      | Fulfilled response =>
        Some (json (CommandResult 200 response)
                   (mkInit None (Some getHeaders)))
      | Rejected err =>
        match err with
        | BadIpException | BadRconPasswordException
        | RconConnectionClosedException =>
          Some (json (Failure 400 (message err) "Bad Request")
                     (mkInit None (Some getHeaders)))
        | _ =>
          Some (json (Failure 500 "Unexpected error occured"
                              "Internal Server Error")
                     (mkInit None (Some getHeaders)))
        end
      end
    end.
End Http.

(** How the promise that [sendCmd] returns ends for the caller that
    awaits it at once: rejected when [sendCmd] threw, as the caller's
    promise stands when the command was sent, pending otherwise. *)
Definition awaited {JsString : Type} (r : @Rcon JsString * SendOutcome)
  : Promise JsString :=
  match r.2 with
  | SendThrows e => Rejected e
  | Sent sendPromise => default Pending (cmdPromises r.1 !! sendPromise)
  | SendWaits _ => Pending
  end.

(** ** The states of a connection object *)

Section Reachable.
Context {JsString : Type}.
Variable TextEncoder_encode : JsString → list byte.
Variable TextDecoder_decode : list byte → JsString.

(** The states a connection object can be in: the new object, and what
    the methods and their parts make of a state, in any order: [connect],
    the registration and the [catch] block of [send], [readChunk], the
    [finally] block of [read] and [disconnect]. *)
Inductive reachable : @Rcon JsString → Prop :=
  | reach_new : reachable Rcon_new
  | reach_connect password dial write st :
      reachable st →
      reachable (connect TextEncoder_encode password dial write st).1
  | reach_send_register id sendPromise idNumber st st' :
      reachable st →
      send_register id st = Some (sendPromise, idNumber, st') →
      reachable st'
  | reach_send_catch idNumber e st :
      reachable st → reachable (send_catch idNumber e st)
  | reach_readChunk data st :
      reachable st → reachable (readChunk TextDecoder_decode data st).1
  | reach_read_finally c st :
      reachable st → reachable (read_finally c st)
  | reach_disconnect st :
      reachable st → reachable (disconnect st).
End Reachable.

(** Every request has a promise of the store, and two requests never
    share one. *)
Definition own_promises {JsString : Type} (st : @Rcon JsString) : Prop :=
  (∀ id r, requests st !! id = Some r →
     (promise r < length (cmdPromises st))%nat)
  ∧ (∀ id1 id2 r1 r2, requests st !! id1 = Some r1 →
       requests st !! id2 = Some r2 → promise r1 = promise r2 → id1 = id2).

(** ** What a step may change *)

(** A caller's promise moves at most from pending to fulfilled. *)
Definition fulfils {V : Type} (p p' : Promise V) : Prop :=
  p' = p ∨ (p = Pending ∧ ∃ v, p' = Fulfilled v).

(** A promise changes only while it is pending. *)
Definition settles {V : Type} (p p' : Promise V) : Prop :=
  p' = p ∨ p = Pending.

(** No request is added; one that stays keeps its promise and its bytes,
    with more bytes after them at most. *)
Definition requests_kept (m m' : gmap Z Request) : Prop :=
  ∀ id r', m' !! id = Some r' →
    ∃ r, m !! id = Some r ∧ promise r' = promise r
         ∧ data r `prefix_of` data r'.

(** The changes that reading bytes can make to a connection. *)
Record reads_to {JsString : Type} (st st' : @Rcon JsString) : Prop := {
  reads_conn : conn st' = conn st;
  reads_authed : authed st' = authed st;
  reads_requests : requests_kept (requests st) (requests st');
  reads_authPromises : Forall2 settles (authPromises st) (authPromises st');
  reads_cmdPromises : Forall2 fulfils (cmdPromises st) (cmdPromises st');
  reads_unreferenced :
    ∀ h, (∀ id r, requests st !! id = Some r → promise r ≠ h) →
      cmdPromises st' !! h = cmdPromises st !! h
}.

(** The caller's promise 0 is pending with its request registered under
    [idNumber], or it is fulfilled. *)
Definition waiting_or_fulfilled {JsString : Type} (idNumber : Z)
    (s : @Rcon JsString) : Prop :=
  (∃ r, requests s !! idNumber = Some r ∧ promise r = 0%nat
        ∧ cmdPromises s !! 0%nat = Some Pending)
  ∨ (∃ v, cmdPromises s !! 0%nat = Some (Fulfilled v)).

(** * Properties *)

(** ** Bytes and little-endian integers *)

Lemma Z_of_byte_range (b : byte) : 0 <= Z_of_byte b < 256.
Proof.
  unfold Z_of_byte. pose proof (Byte.to_N_bounded b). lia.
Qed.

Lemma Z_of_byte_of_Z (z : Z) : Z_of_byte (byte_of_Z z) = z mod 256.
Proof.
  unfold Z_of_byte, byte_of_Z.
  assert (Hr : 0 <= z mod 256 < 256) by (apply Z.mod_pos_bound; lia).
  destruct (Byte.of_N (Z.to_N (z mod 256))) as [b|] eqn:Hb.
  - apply Byte.to_of_N in Hb. rewrite Hb. lia.
  - apply Byte.of_N_None_iff in Hb. lia.
Qed.

Lemma byte_of_Z_of_byte (b : byte) : byte_of_Z (Z_of_byte b) = b.
Proof.
  unfold byte_of_Z. rewrite Z.mod_small by apply Z_of_byte_range.
  unfold Z_of_byte. rewrite N2Z.id, Byte.of_to_N. reflexivity.
Qed.

Lemma toInt32_id (z : Z) : is_int32 z → toInt32 z = z.
Proof.
  unfold is_int32, toInt32. intros Hz.
  rewrite Z.mod_small by lia. lia.
Qed.

Lemma toInt32_range (z : Z) : is_int32 (toInt32 z).
Proof.
  unfold is_int32, toInt32.
  pose proof (Z.mod_pos_bound (z + 2 ^ 31) (2 ^ 32)). lia.
Qed.

Lemma toInt32_mod (z : Z) : toInt32 (z mod 2 ^ 32) = toInt32 z.
Proof.
  unfold toInt32. f_equal.
  rewrite Zplus_mod_idemp_l. reflexivity.
Qed.

(** The four bytes written for [z] read back as [z] modulo 2^32. *)
Lemma le_bytes_sum (z : Z) :
  z mod 256 + 2 ^ 8 * ((z / 2 ^ 8) mod 256) + 2 ^ 16 * ((z / 2 ^ 16) mod 256)
  + 2 ^ 24 * ((z / 2 ^ 24) mod 256) = z mod 2 ^ 32.
Proof.
  change (2 ^ 32) with (2 ^ 8 * (2 ^ 8 * (2 ^ 8 * 2 ^ 8))).
  rewrite !Z.rem_mul_r by lia.
  rewrite !Z.div_div by lia.
  change (2 ^ 8 * 2 ^ 8) with (2 ^ 16).
  change (2 ^ 16 * 2 ^ 8) with (2 ^ 24).
  change (2 ^ 8) with 256. lia.
Qed.

Lemma int32_of_le_int32_le (z : Z) :
  int32_of_le (byte_of_Z z) (byte_of_Z (z / 2 ^ 8)) (byte_of_Z (z / 2 ^ 16))
              (byte_of_Z (z / 2 ^ 24)) = toInt32 z.
Proof.
  unfold int32_of_le. rewrite !Z_of_byte_of_Z, le_bytes_sum.
  apply toInt32_mod.
Qed.

Lemma int32_le_length (z : Z) : length (int32_le z) = 4%nat.
Proof. reflexivity. Qed.

Lemma equals_eq (a b : list byte) : Uint8Array.equals a b = true ↔ a = b.
Proof.
  revert b. induction a as [|x a IH]; intros [|y b]; simpl; try easy.
  rewrite andb_true_iff, IH. split.
  - intros [Hxy ->]. apply Byte.byte_dec_bl in Hxy. congruence.
  - intros [= -> ->]. split; [apply Byte.byte_dec_lb|]; reflexivity.
Qed.

Lemma equals_neq (a b : list byte) : a ≠ b → Uint8Array.equals a b = false.
Proof.
  intros Hne. destruct (Uint8Array.equals a b) eqn:E; [|reflexivity].
  apply equals_eq in E. contradiction.
Qed.

(** ** DataView reads and writes inside a buffer *)

Lemma getInt32_at (pre post : list byte) (b0 b1 b2 b3 : byte) (off : nat) :
  length pre = off →
  DataView.getInt32 (pre ++ b0 :: b1 :: b2 :: b3 :: post) off
  = Some (int32_of_le b0 b1 b2 b3).
Proof.
  intros <-. unfold DataView.getInt32.
  rewrite drop_app_length. reflexivity.
Qed.

Lemma getInt32_int32_le (pre post : list byte) (v : Z) (off : nat) :
  length pre = off →
  DataView.getInt32 (pre ++ int32_le v ++ post) off = Some (toInt32 v).
Proof.
  intros H. unfold int32_le. simpl.
  rewrite (getInt32_at _ _ _ _ _ _ _ H), int32_of_le_int32_le. reflexivity.
Qed.

Lemma getInt32_Some_length (buf : list byte) (off : nat) (v : Z) :
  DataView.getInt32 buf off = Some v → (off + 4 ≤ length buf)%nat.
Proof.
  unfold DataView.getInt32. intros H.
  assert (Hl : (4 ≤ length (drop off buf))%nat).
  { destruct (drop off buf) as [|? [|? [|? [|? ?]]]]; simpl; try discriminate; lia. }
  rewrite length_drop in Hl. lia.
Qed.

Lemma getInt32_short (buf : list byte) (off : nat) :
  (length buf < off + 4)%nat → DataView.getInt32 buf off = None.
Proof.
  intros H. destruct (DataView.getInt32 buf off) eqn:E; [|reflexivity].
  apply getInt32_Some_length in E. lia.
Qed.

Lemma write_at (pre old post src : list byte) (off : nat) :
  length pre = off → length old = length src →
  DataView.write (pre ++ old ++ post) off src = Some (pre ++ src ++ post).
Proof.
  intros <- Hl. unfold DataView.write.
  rewrite decide_True by (rewrite !length_app; lia).
  rewrite take_app_length, <- Hl, drop_app_add, drop_app_length.
  reflexivity.
Qed.

Lemma write_at_0 (old post src : list byte) :
  length old = length src →
  DataView.write (old ++ post) 0 src = Some (src ++ post).
Proof. intros Hl. by apply (write_at [] old post src 0). Qed.

(** ** Slices *)

Lemma slice_list_middle (pre mid post : list byte) (b e : Z) :
  b = Z.of_nat (length pre) → e = Z.of_nat (length pre + length mid) →
  Uint8Array.slice_list (pre ++ mid ++ post) b e = mid.
Proof.
  intros -> ->. unfold Uint8Array.slice_list, Uint8Array.rel_index.
  rewrite !length_app.
  destruct (Z.ltb_spec (Z.of_nat (length pre)) 0) as [?|_]; [lia|].
  destruct (Z.ltb_spec (Z.of_nat (length pre + length mid)) 0) as [?|_]; [lia|].
  rewrite !Z.min_l by lia.
  replace (Z.to_nat (Z.of_nat (length pre + length mid) - Z.of_nat (length pre)))
    with (length mid) by lia.
  rewrite Nat2Z.id, drop_app_length, take_app_length. reflexivity.
Qed.

Lemma slice_from_app (pre post : list byte) (b : Z) :
  b = Z.of_nat (length pre) →
  Uint8Array.slice_from (pre ++ post) b = post.
Proof.
  intros ->. unfold Uint8Array.slice_from, Uint8Array.slice_list,
    Uint8Array.rel_index.
  rewrite !length_app.
  destruct (Z.ltb_spec (Z.of_nat (length pre)) 0) as [?|_]; [lia|].
  destruct (Z.ltb_spec (Z.of_nat (length pre + length post)) 0) as [?|_]; [lia|].
  rewrite !Z.min_l by lia.
  rewrite Nat2Z.id, drop_app_length. apply take_ge. lia.
Qed.

Lemma contents_prefix (l rest stale : list byte) :
  Uint8Array.contents
    (Uint8Array.mk (l ++ rest ++ stale) 0 (length l + length rest))
  = l ++ rest.
Proof.
  unfold Uint8Array.contents. simpl. rewrite drop_0, app_assoc.
  apply take_app_length'. by rewrite length_app.
Qed.

Lemma contents_of_list (l : list byte) :
  Uint8Array.contents (Uint8Array.of_list l) = l.
Proof.
  unfold Uint8Array.contents. simpl. rewrite drop_0. by apply take_ge.
Qed.

(** ** The encoder *)

Section Codec.
Context {JsString : Type}.
Variable TextEncoder_encode : JsString → list byte.

(** The successive writes of [sendData] fill the whole buffer. *)
Lemma sendData_buffer_eq (id : list byte) (data : JsString) (packetType : Z) :
  length id = 4%nat →
  sendData_buffer TextEncoder_encode id data packetType
  = Some (int32_le (toInt32 (Z.of_nat (length (TextEncoder_encode data)) + 10))
          ++ id ++ int32_le (toInt32 packetType)
          ++ TextEncoder_encode data ++ [x00; x00]).
Proof.
  intros Hid. unfold sendData_buffer.
  set (payload := TextEncoder_encode data). set (n := length payload).
  replace (n + 14)%nat with (4 + (4 + (4 + (n + 2))))%nat by lia.
  rewrite !replicate_add.
  unfold DataView.setInt32, DataView.setInt16, Uint8Array.set.
  set (L := int32_le (toInt32 (Z.of_nat n + 10))).
  set (T := int32_le (toInt32 packetType)).
  rewrite (write_at_0 (replicate 4 x00) _ L) by done.
  cbn [mbind option_bind].
  rewrite (write_at L (replicate 4 x00) _ id 4) by (by rewrite ?Hid).
  cbn [mbind option_bind].
  rewrite (app_assoc L id).
  rewrite (write_at (L ++ id) (replicate 4 x00) _ T 8)
    by (by rewrite ?length_app, ?Hid).
  cbn [mbind option_bind].
  rewrite (app_assoc (L ++ id) T).
  rewrite (write_at ((L ++ id) ++ T) (replicate n x00) _ payload 12)
    by (by rewrite ?length_app, ?Hid, ?length_replicate).
  cbn [mbind option_bind].
  rewrite (app_assoc _ payload).
  rewrite <- (app_nil_r (replicate 2 x00)).
  rewrite (write_at (((L ++ id) ++ T) ++ payload) (replicate 2 x00) []
                    (int16_le (toInt16 0)) (n + 12))
    by (rewrite ?length_app, ?Hid; done || (subst L T n; simpl; lia)).
  rewrite <- !app_assoc. reflexivity.
Qed.
End Codec.

(** ** One iteration of the decoding loop *)

Lemma frame_length (id : list byte) (packetType : Z) (payload : list byte) :
  length id = 4%nat →
  length (frame id packetType payload) = (length payload + 14)%nat.
Proof.
  intros Hid. unfold frame. rewrite !length_app, Hid. simpl. lia.
Qed.

(** What the decoder reads at offsets 0, 4 and 8 of a buffer that starts
    with a frame, and the two slices it takes. *)
Section FrameFields.
Variables (id payload rest : list byte) (packetType : Z).
Hypothesis Hid : length id = 4%nat.

Lemma frame_getInt32_0 :
  Z.of_nat (length payload) + 10 < 2 ^ 31 →
  DataView.getInt32 (frame id packetType payload ++ rest) 0
  = Some (Z.of_nat (length payload) + 10).
Proof.
  intros Hlen. unfold frame. rewrite <- !app_assoc.
  pose proof (getInt32_int32_le [] (id ++ int32_le (toInt32 packetType)
                ++ payload ++ [x00; x00] ++ rest)
                (toInt32 (Z.of_nat (length payload) + 10)) 0 eq_refl) as E.
  rewrite app_nil_l in E. rewrite E.
  rewrite !toInt32_id; [reflexivity| |apply toInt32_range].
  unfold is_int32. lia.
Qed.

Lemma frame_getInt32_4 :
  DataView.getInt32 (frame id packetType payload ++ rest) 4
  = DataView.getInt32 id 0.
Proof.
  destruct id as [|i0 [|i1 [|i2 [|i3 [|? ?]]]]]; try discriminate Hid.
  reflexivity.
Qed.

Lemma frame_getInt32_8 :
  DataView.getInt32 (frame id packetType payload ++ rest) 8
  = Some (toInt32 packetType).
Proof.
  unfold frame. rewrite <- !app_assoc. rewrite (app_assoc (int32_le _) id).
  rewrite (getInt32_int32_le _ _ _ 8) by (by rewrite length_app, Hid).
  rewrite toInt32_id by apply toInt32_range. reflexivity.
Qed.

Lemma frame_payload_slice :
  Uint8Array.slice_list (frame id packetType payload ++ rest)
    12 (12 + (Z.of_nat (length payload) + 10) - 10) = payload.
Proof.
  unfold frame. rewrite <- !app_assoc.
  rewrite (app_assoc (int32_le _) id), (app_assoc (_ ++ id) (int32_le _)).
  apply slice_list_middle; rewrite !length_app, Hid; simpl; lia.
Qed.

Lemma frame_rest_slice :
  Uint8Array.slice_from (frame id packetType payload ++ rest)
    (4 + (Z.of_nat (length payload) + 10)) = rest.
Proof.
  apply slice_from_app. rewrite (frame_length _ _ _ Hid). lia.
Qed.
End FrameFields.

Section Decode.
Context {S : Type}.
Variable handle : Z → Z → list byte → S → S.

(** When the buffer starts with a complete frame, the loop hands the
    packet over and goes on with the bytes after it; bytes of the
    buffer beyond the view ([stale]) play no part. *)
Lemma readLoop_frame (fuel : nat) (id payload rest stale : list byte)
    (packetType idNumber : Z) (s : S) :
  DataView.getInt32 id 0 = Some idNumber → length id = 4%nat →
  Z.of_nat (length payload) + 10 < 2 ^ 31 →
  readLoop handle (Datatypes.S fuel)
    (Uint8Array.mk (frame id packetType payload ++ rest ++ stale) 0
                   (length (frame id packetType payload) + length rest)) s
  = readLoop handle fuel (Uint8Array.of_list rest)
      (handle idNumber (toInt32 packetType) payload s).
Proof.
  intros Hnum Hid Hlen.
  pose proof (frame_length id packetType payload Hid) as HF.
  pose proof (frame_getInt32_0 id payload (rest ++ stale) packetType Hid Hlen) as H0.
  pose proof (frame_getInt32_4 id payload (rest ++ stale) packetType Hid) as H4.
  pose proof (frame_getInt32_8 id payload (rest ++ stale) packetType Hid) as H8.
  pose proof (frame_payload_slice id payload rest packetType Hid) as Hp.
  pose proof (frame_rest_slice id payload rest packetType Hid) as Hr.
  rewrite Hnum in H4.
  set (n := length payload) in *.
  revert H0 H4 H8 Hp Hr HF. generalize (frame id packetType payload).
  intros F H0 H4 H8 Hp Hr HF.
  cbn [readLoop Uint8Array.buffer Uint8Array.length].
  rewrite contents_prefix, H0, H4, H8, Hp, Hr.
  destruct (Nat.eqb_spec (length F + length rest) 0) as [?|_]; [lia|].
  destruct (Z.eqb_spec (Z.of_nat n + 10) 0) as [?|_]; [lia|].
  destruct (Z.leb_spec 10 (Z.of_nat n + 10)) as [_|?]; [|lia].
  destruct (Z.leb_spec (Z.of_nat n + 10 + 4)
              (Z.of_nat (length F + length rest))) as [_|?]; [|lia].
  reflexivity.
Qed.
End Decode.

(** ** The loop terminates within its fuel *)

Lemma slice_from_length (l : list byte) (b : Z) :
  0 <= b → length (Uint8Array.slice_from l b) = (length l - Z.to_nat b)%nat.
Proof.
  intros Hb. unfold Uint8Array.slice_from, Uint8Array.slice_list,
    Uint8Array.rel_index.
  destruct (Z.ltb_spec b 0) as [?|_]; [lia|].
  destruct (Z.ltb_spec (Z.of_nat (length l)) 0) as [?|_]; [lia|].
  rewrite length_take, length_drop. lia.
Qed.

Lemma contents_length (a : Uint8Array.t) :
  (length (Uint8Array.contents a) ≤ Uint8Array.length a)%nat.
Proof. unfold Uint8Array.contents. rewrite length_take. lia. Qed.

Section Fuel.
Context {S : Type}.
Variable handle : Z → Z → list byte → S → S.

(** With more fuel than bytes the result does not depend on the fuel. *)
Lemma readLoop_fuel (fuel fuel' : nat) (data : Uint8Array.t) (s : S) :
  (Uint8Array.length data < fuel)%nat →
  (Uint8Array.length data < fuel')%nat →
  readLoop handle fuel data s = readLoop handle fuel' data s.
Proof.
  revert fuel' data s.
  induction fuel as [|fuel IH]; intros [|fuel'] data s Hf Hf'; try lia.
  cbn [readLoop].
  destruct (Nat.eqb_spec (Uint8Array.length data) 0) as [|Hn]; [reflexivity|].
  destruct (DataView.getInt32 (Uint8Array.buffer data) 0) as [len|];
    [|reflexivity].
  destruct (len =? 0); [reflexivity|].
  destruct (Z.leb_spec 10 len) as [H10|]; [|reflexivity].
  destruct (Z.leb_spec (len + 4) (Z.of_nat (Uint8Array.length data)))
    as [Hl|]; [|reflexivity].
  cbn [andb].
  destruct (DataView.getInt32 (Uint8Array.buffer data) 4); [|reflexivity].
  destruct (DataView.getInt32 (Uint8Array.buffer data) 8); [|reflexivity].
  pose proof (contents_length data).
  apply IH; simpl; rewrite slice_from_length by lia; lia.
Qed.

(** The loop of [readChunk] always ends by one of the source's exits. *)
Lemma readLoop_total (fuel : nat) (data : Uint8Array.t) (s : S) :
  (Uint8Array.length data < fuel)%nat →
  (readLoop handle fuel data s).2 ≠ OutOfFuel.
Proof.
  revert data s.
  induction fuel as [|fuel IH]; intros data s Hf; [lia|].
  cbn [readLoop].
  destruct (Nat.eqb_spec (Uint8Array.length data) 0) as [|Hn]; [done|].
  destruct (DataView.getInt32 (Uint8Array.buffer data) 0) as [len|]; [|done].
  destruct (len =? 0); [done|].
  destruct (Z.leb_spec 10 len) as [H10|]; [|done].
  destruct (Z.leb_spec (len + 4) (Z.of_nat (Uint8Array.length data)))
    as [Hl|]; [|done].
  cbn [andb].
  destruct (DataView.getInt32 (Uint8Array.buffer data) 4); [|done].
  destruct (DataView.getInt32 (Uint8Array.buffer data) 8); [|done].
  pose proof (contents_length data).
  apply IH; simpl; rewrite slice_from_length by lia; lia.
Qed.
End Fuel.

(** ** Routing leaves the carry-over buffer alone *)

Section DispatchFrame.
Context {JsString : Type}.
Variable TextDecoder_decode : list byte → JsString.
Lemma dispatch_outstandingData (id type : Z) (payload : list byte)
    (st : @Rcon JsString) :
  outstandingData (dispatch TextDecoder_decode id type payload st)
  = outstandingData st.
Proof.
  unfold dispatch, authed_resolve, authed_reject.
  repeat case_match; reflexivity.
Qed.

Lemma dispatch_conn (id type : Z) (payload : list byte) (st : @Rcon JsString) :
  conn (dispatch TextDecoder_decode id type payload st) = conn st.
Proof.
  unfold dispatch, authed_resolve, authed_reject.
  repeat case_match; reflexivity.
Qed.
End DispatchFrame.

(** ** Encoder layout and round trip *)

(** C4: for an id of four bytes, a type in the 32-bit signed range and a
    payload whose length plus 10 is below 2^31, [sendData] builds a frame of
    [length payload + 14] bytes: the little-endian length field
    [length payload + 10] at offset 0, the id at offset 4 and the type at
    offset 8 as little-endian 32-bit signed integers, the payload bytes at
    offset 12 and two zero bytes at the end. *)
Theorem sendData_frame_layout {JsString : Type}
    (TextEncoder_encode : JsString → list byte)
    (id : list byte) (data : JsString) (packetType idNumber : Z) :
  length id = 4%nat →
  DataView.getInt32 id 0 = Some idNumber →
  is_int32 packetType →
  Z.of_nat (length (TextEncoder_encode data)) + 10 < 2 ^ 31 →
  let payload := TextEncoder_encode data in
  ∃ sendBuffer,
    sendData_buffer TextEncoder_encode id data packetType = Some sendBuffer
    ∧ length sendBuffer = (length payload + 14)%nat
    ∧ DataView.getInt32 sendBuffer 0 = Some (Z.of_nat (length payload) + 10)
    ∧ take 4 sendBuffer = int32_le (Z.of_nat (length payload) + 10)
    ∧ DataView.getInt32 sendBuffer 4 = Some idNumber
    ∧ take 4 (drop 4 sendBuffer) = id
    ∧ DataView.getInt32 sendBuffer 8 = Some packetType
    ∧ take 4 (drop 8 sendBuffer) = int32_le packetType
    ∧ take (length payload) (drop 12 sendBuffer) = payload
    ∧ drop (length payload + 12) sendBuffer = [x00; x00].
Proof.
  intros Hid Hnum Hty Hlen payload. subst payload.
  set (payload := TextEncoder_encode data) in *.
  exists (frame id packetType payload). split.
  { apply sendData_buffer_eq, Hid. }
  pose proof (frame_getInt32_0 id payload [] packetType Hid Hlen) as H0.
  pose proof (frame_getInt32_4 id payload [] packetType Hid) as H4.
  pose proof (frame_getInt32_8 id payload [] packetType Hid) as H8.
  rewrite app_nil_r in H0, H4, H8.
  rewrite toInt32_id in H8 by exact Hty.
  split; [by apply frame_length|].
  split; [exact H0|].
  assert (HL : toInt32 (Z.of_nat (length payload) + 10)
               = Z.of_nat (length payload) + 10).
  { apply toInt32_id. unfold is_int32. lia. }
  unfold frame in H4, H8 |- *.
  rewrite HL, (toInt32_id _ Hty) in H4, H8 |- *.
  split; [reflexivity|].
  split; [by rewrite H4|].
  split.
  { change 4%nat with (length (int32_le (Z.of_nat (length payload) + 10))) at 2.
    rewrite drop_app_length. by apply take_app_length'. }
  split; [exact H8|].
  split.
  { rewrite (app_assoc (int32_le _) id).
    rewrite drop_app_length' by (by rewrite length_app, Hid).
    reflexivity. }
  split.
  { rewrite (app_assoc (int32_le _) id), (app_assoc (_ ++ id) (int32_le _)).
    rewrite drop_app_length' by (by rewrite !length_app, Hid).
    apply take_app_length. }
  rewrite (app_assoc (int32_le _) id), (app_assoc (_ ++ id) (int32_le _)),
    (app_assoc _ payload).
  apply drop_app_length'. rewrite !length_app, Hid, !int32_le_length. lia.
Qed.

Lemma sendData_frame_layout_witness :
  ∃ sendBuffer,
    sendData_buffer (λ s : list byte, s) [x05; x00; x00; x00] ["a"%byte] 2
    = Some sendBuffer
    ∧ length sendBuffer = 15%nat
    ∧ DataView.getInt32 sendBuffer 0 = Some 11
    ∧ take 4 sendBuffer = int32_le 11
    ∧ DataView.getInt32 sendBuffer 4 = Some 5
    ∧ take 4 (drop 4 sendBuffer) = [x05; x00; x00; x00]
    ∧ DataView.getInt32 sendBuffer 8 = Some 2
    ∧ take 4 (drop 8 sendBuffer) = int32_le 2
    ∧ take 1 (drop 12 sendBuffer) = ["a"%byte]
    ∧ drop 13 sendBuffer = [x00; x00].
Proof.
  apply (sendData_frame_layout (λ s : list byte, s) [x05; x00; x00; x00]
           ["a"%byte] 2 5).
  - reflexivity.
  - reflexivity.
  - unfold is_int32. lia.
  - simpl. lia.
Defined.

(** C2: decoding the frame that [sendData] builds for an id of four bytes,
    a type in the 32-bit signed range and a payload whose length plus 10 is
    below 2^31 hands over exactly one packet, with that id, type and
    payload, and ends with no byte left: the loop stops on the empty
    buffer, [readChunk] routes that one packet and keeps nothing. *)
Theorem decode_encode_roundtrip {JsString : Type}
    (TextEncoder_encode : JsString → list byte)
    (TextDecoder_decode : list byte → JsString)
    (id : list byte) (data : JsString) (packetType idNumber : Z) :
  length id = 4%nat →
  DataView.getInt32 id 0 = Some idNumber →
  is_int32 packetType →
  Z.of_nat (length (TextEncoder_encode data)) + 10 < 2 ^ 31 →
  ∃ sendBuffer,
    sendData_buffer TextEncoder_encode id data packetType = Some sendBuffer
    ∧ (∀ stale,
         decodedPackets
           (Uint8Array.mk (sendBuffer ++ stale) 0 (length sendBuffer))
         = ([mkPacket idNumber packetType (TextEncoder_encode data)],
            EndOfData))
    ∧ decodedPackets (Uint8Array.of_list sendBuffer)
      = ([mkPacket idNumber packetType (TextEncoder_encode data)], EndOfData)
    ∧ (∀ stale (st : @Rcon JsString),
         outstandingData st = None →
         readChunk TextDecoder_decode
           (Uint8Array.mk (sendBuffer ++ stale) 0 (length sendBuffer)) st
         = (dispatch TextDecoder_decode idNumber packetType
              (TextEncoder_encode data) st, None)
         ∧ outstandingData
             (readChunk TextDecoder_decode
                (Uint8Array.mk (sendBuffer ++ stale) 0 (length sendBuffer))
                st).1 = None).
Proof.
  intros Hid Hnum Hty Hlen.
  set (payload := TextEncoder_encode data) in *.
  exists (frame id packetType payload). split.
  { apply sendData_buffer_eq, Hid. }
  assert (Hone : ∀ (S : Type) (handle : Z → Z → list byte → S → S) s stale,
    readLoop handle (Datatypes.S (length (frame id packetType payload)))
      (Uint8Array.mk (frame id packetType payload ++ stale) 0
                     (length (frame id packetType payload))) s
    = (handle idNumber packetType payload s, EndOfData)).
  { intros S handle s stale.
    pose proof (readLoop_frame handle (length (frame id packetType payload))
                  id payload [] stale packetType idNumber s Hnum Hid Hlen) as E.
    rewrite app_nil_l, Nat.add_0_r in E. rewrite E.
    rewrite (toInt32_id _ Hty), (frame_length _ _ _ Hid).
    replace (length payload + 14)%nat with (Datatypes.S (length payload + 13))
      by lia.
    reflexivity. }
  split; [|split].
  - intros stale. unfold decodedPackets. simpl Uint8Array.length.
    apply Hone.
  - pose proof (Hone (list Packet)
      (λ id type payload acc, acc ++ [mkPacket id type payload]) [] []) as E.
    rewrite app_nil_r in E. exact E.
  - intros stale st Hod.
    assert (E : readChunk TextDecoder_decode
              (Uint8Array.mk (frame id packetType payload ++ stale) 0
                 (length (frame id packetType payload))) st
            = (dispatch TextDecoder_decode idNumber packetType payload st, None)).
    { unfold readChunk, takeOutstanding. rewrite Hod. simpl Uint8Array.length.
      rewrite Hone. reflexivity. }
    rewrite E. split; [reflexivity|].
    simpl. rewrite dispatch_outstandingData. exact Hod.
Qed.

Lemma decode_encode_roundtrip_witness :
  ∃ sendBuffer,
    sendData_buffer (λ s : list byte, s) [x05; x00; x00; x00] ["a"%byte] 2
    = Some sendBuffer
    ∧ (∀ stale,
         decodedPackets
           (Uint8Array.mk (sendBuffer ++ stale) 0 (length sendBuffer))
         = ([mkPacket 5 2 ["a"%byte]], EndOfData))
    ∧ decodedPackets (Uint8Array.of_list sendBuffer)
      = ([mkPacket 5 2 ["a"%byte]], EndOfData)
    ∧ (∀ stale (st : @Rcon (list byte)),
         outstandingData st = None →
         readChunk (λ s : list byte, s)
           (Uint8Array.mk (sendBuffer ++ stale) 0 (length sendBuffer)) st
         = (dispatch (λ s : list byte, s) 5 2 ["a"%byte] st, None)
         ∧ outstandingData
             (readChunk (λ s : list byte, s)
                (Uint8Array.mk (sendBuffer ++ stale) 0 (length sendBuffer))
                st).1 = None).
Proof.
  apply (decode_encode_roundtrip (λ s : list byte, s) (λ s : list byte, s)
           [x05; x00; x00; x00] ["a"%byte] 2 5).
  - reflexivity.
  - reflexivity.
  - unfold is_int32. lia.
  - simpl. lia.
Defined.

(** ** Routing of decoded packets *)

Section Dispatch.
Context {JsString : Type}.
Variable TextDecoder_decode : list byte → JsString.

Lemma dispatch_minus_one (type : Z) (payload : list byte)
    (st : @Rcon JsString) :
  dispatch TextDecoder_decode (-1) type payload st
  = authed_reject BadRconPasswordException st.
Proof. reflexivity. Qed.

Lemma authed_reject_fields (e : JsError) (st : @Rcon JsString) :
  requests (authed_reject e st) = requests st
  ∧ cmdPromises (authed_reject e st) = cmdPromises st
  ∧ conn (authed_reject e st) = conn st
  ∧ authed (authed_reject e st) = authed st
  ∧ outstandingData (authed_reject e st) = outstandingData st.
Proof. destruct st as [[a|] ? ? ? ? ?]; done. Qed.

Lemma dispatchAll_cons (p : Packet) (ps : list Packet) (st : @Rcon JsString) :
  dispatchAll TextDecoder_decode (p :: ps) st
  = dispatchAll TextDecoder_decode ps
      (dispatch TextDecoder_decode (pid p) (ptype p) (ppayload p) st).
Proof. reflexivity. Qed.

(** A fragment that is not the marker is appended to the request. *)
Lemma dispatch_fragment (id : Z) (payload : list byte) (request : Request)
    (st : @Rcon JsString) :
  id ≠ -1 → requests st !! id = Some request → payload ≠ FrameBuffer →
  dispatch TextDecoder_decode id PacketType.RESPONSE_VALUE payload st
  = set_requests
      (<[id := mkRequest (data request ++ payload) (promise request)]>
         (requests st)) st.
Proof.
  intros Hid Hreq Hp. unfold dispatch.
  destruct (Z.eqb_spec id (-1)) as [?|_]; [done|].
  rewrite Hreq, equals_neq by done. reflexivity.
Qed.

(** The marker resolves the request with what it has accumulated and
    deletes it. *)
Lemma dispatch_marker (id : Z) (request : Request) (st : @Rcon JsString) :
  id ≠ -1 → requests st !! id = Some request →
  dispatch TextDecoder_decode id PacketType.RESPONSE_VALUE FrameBuffer st
  = set_requests (delete id (requests st))
      (request_resolve request (TextDecoder_decode (data request)) st).
Proof.
  intros Hid Hreq. unfold dispatch.
  destruct (Z.eqb_spec id (-1)) as [?|_]; [done|].
  rewrite Hreq. reflexivity.
Qed.

(** Fragments followed by the marker, for a request that may already
    hold bytes. *)
Lemma dispatchAll_fragments_marker (payloads : list (list byte)) :
  ∀ (id : Z) (request : Request) (st : @Rcon JsString),
  id ≠ -1 → requests st !! id = Some request →
  Forall (λ p, p ≠ FrameBuffer) payloads →
  dispatchAll TextDecoder_decode
    (map (mkPacket id PacketType.RESPONSE_VALUE) payloads
     ++ [mkPacket id PacketType.RESPONSE_VALUE FrameBuffer]) st
  = set_requests (delete id (requests st))
      (request_resolve request
         (TextDecoder_decode (data request ++ concat payloads)) st).
Proof.
  induction payloads as [|p ps IH]; intros id request st Hid Hreq Hall.
  - simpl. rewrite app_nil_r. by apply dispatch_marker.
  - inversion_clear Hall as [|? ? Hp Hps].
    cbn [map app]. rewrite dispatchAll_cons. cbn [pid ptype ppayload].
    rewrite (dispatch_fragment id p request st Hid Hreq Hp).
    rewrite (IH id (mkRequest (data request ++ p) (promise request)))
      by (done || apply lookup_insert_eq).
    unfold set_requests, request_resolve, set_cmdPromises. simpl.
    rewrite delete_insert_eq, <- app_assoc. reflexivity.
Qed.
End Dispatch.

(** C1 (amended): for a pending command id other than -1 whose request
    holds no bytes yet, routing N RESPONSE_VALUE packets with that id whose
    payloads all differ from the marker [0,1,0,0], then one whose payload is
    the marker, calls the request's [resolve] with the text decoding of the
    N payloads concatenated in arrival order, and deletes the entry; nothing
    else of the connection changes.  A promise that was pending is
    fulfilled with that text. *)
Theorem sentinel_resolves_with_concatenation {JsString : Type}
    (TextDecoder_decode : list byte → JsString)
    (st : @Rcon JsString) (id : Z) (request : Request)
    (payloads : list (list byte)) :
  requests st !! id = Some request →
  data request = [] →
  id ≠ -1 →
  Forall (λ p, p ≠ FrameBuffer) payloads →
  dispatchAll TextDecoder_decode
    (map (mkPacket id PacketType.RESPONSE_VALUE) payloads
     ++ [mkPacket id PacketType.RESPONSE_VALUE FrameBuffer]) st
  = mkRcon (authed st) (conn st) (outstandingData st)
      (delete id (requests st)) (authPromises st)
      (alter (resolveP (TextDecoder_decode (concat payloads)))
             (promise request) (cmdPromises st))
  ∧ (cmdPromises st !! promise request = Some Pending →
     cmdPromises
       (dispatchAll TextDecoder_decode
          (map (mkPacket id PacketType.RESPONSE_VALUE) payloads
           ++ [mkPacket id PacketType.RESPONSE_VALUE FrameBuffer]) st)
       !! promise request
     = Some (Fulfilled (TextDecoder_decode (concat payloads)))).
Proof.
  intros Hreq Hdata Hid Hall.
  rewrite (dispatchAll_fragments_marker TextDecoder_decode payloads id request
             st Hid Hreq Hall), Hdata.
  split; [reflexivity|].
  intros Hp. simpl. rewrite list_lookup_alter_eq, Hp. reflexivity.
Qed.

Lemma sentinel_resolves_with_concatenation_witness :
  let st : @Rcon (list byte) :=
    mkRcon None (Some 7%nat) None (<[5 := mkRequest [] 0]> ∅) [] [Pending] in
  let packets :=
    map (mkPacket 5 PacketType.RESPONSE_VALUE) [["a"%byte]; ["b"%byte]]
    ++ [mkPacket 5 PacketType.RESPONSE_VALUE FrameBuffer] in
  dispatchAll (λ s : list byte, s) packets st
  = mkRcon None (Some 7%nat) None (delete 5 (requests st)) []
      (alter (resolveP ["a"%byte; "b"%byte]) 0%nat (cmdPromises st))
  ∧ (cmdPromises st !! 0%nat = Some Pending →
     cmdPromises (dispatchAll (λ s : list byte, s) packets st) !! 0%nat
     = Some (Fulfilled ["a"%byte; "b"%byte])).
Proof.
  apply (sentinel_resolves_with_concatenation (λ s : list byte, s)
           (mkRcon None (Some 7%nat) None (<[5 := mkRequest [] 0]> ∅) []
                   [Pending])
           5 (mkRequest [] 0) [["a"%byte]; ["b"%byte]]).
  - reflexivity.
  - reflexivity.
  - lia.
  - repeat constructor; discriminate.
Defined.

(** C1 as stated fails for the pending id -1: the marker packet with that
    id rejects the authentication promise, the entry stays in the map and
    the caller's promise stays pending. *)
Lemma sentinel_id_minus_one_counterexample :
  let st := mkRcon (Some 0%nat) (Some 7%nat) None
              (<[-1 := mkRequest [] 0]> ∅) [Pending]
              ([Pending] : list (Promise (list byte))) in
  let st' := dispatchAll (λ s : list byte, s)
               (map (mkPacket (-1) PacketType.RESPONSE_VALUE) []
                ++ [mkPacket (-1) PacketType.RESPONSE_VALUE FrameBuffer]) st in
  requests st !! (-1) = Some (mkRequest [] 0)
  ∧ requests st' !! (-1) = Some (mkRequest [] 0)
  ∧ cmdPromises st' !! 0%nat = Some Pending
  ∧ authPromises st' = [Rejected BadRconPasswordException].
Proof. repeat split; reflexivity. Qed.

(** C9: a packet whose id is not -1, that is not the authentication
    answer (id 0 with type RESPONSE_AUTH) and whose id has no entry in the
    map of requests leaves the whole connection state as it was. *)
Theorem dispatch_unknown_id_dropped {JsString : Type}
    (TextDecoder_decode : list byte → JsString)
    (id type : Z) (payload : list byte) (st : @Rcon JsString) :
  id ≠ -1 →
  ¬ (id = 0 ∧ type = PacketType.RESPONSE_AUTH) →
  requests st !! id = None →
  dispatch TextDecoder_decode id type payload st = st.
Proof.
  intros Hid Hauth Hreq. unfold dispatch.
  destruct (Z.eqb_spec id (-1)) as [?|_]; [done|]. cbn [negb].
  destruct (Z.eqb_spec type PacketType.RESPONSE_AUTH) as [Ht|_];
    destruct (Z.eqb_spec id 0) as [Hz|_]; cbn [andb];
    try (exfalso; apply Hauth; done);
    rewrite Hreq; by destruct (type =? PacketType.RESPONSE_VALUE).
Qed.

Lemma dispatch_unknown_id_dropped_witness :
  dispatch (λ s : list byte, s) 9 PacketType.RESPONSE_VALUE ["a"%byte]
    (mkRcon (Some 0%nat) (Some 7%nat) None (<[5 := mkRequest [] 0]> ∅)
            [Pending] [Pending])
  = mkRcon (Some 0%nat) (Some 7%nat) None (<[5 := mkRequest [] 0]> ∅)
           [Pending] [Pending].
Proof.
  apply (dispatch_unknown_id_dropped (λ s : list byte, s) 9
           PacketType.RESPONSE_VALUE ["a"%byte]).
  - lia.
  - intros [H _]. lia.
  - reflexivity.
Defined.

(** C6: a packet with id -1, whatever its type and payload, calls [reject]
    on the authentication promise with [BadRconPasswordException] (a pending
    promise becomes rejected with it) and touches nothing else: the map of
    requests, the callers' promises, the transport and the carry-over
    buffer are as before. *)
Theorem dispatch_minus_one_rejects_auth {JsString : Type}
    (TextDecoder_decode : list byte → JsString)
    (type : Z) (payload : list byte) (st : @Rcon JsString) :
  dispatch TextDecoder_decode (-1) type payload st
  = mkRcon (authed st) (conn st) (outstandingData st) (requests st)
      (match authed st with
       | Some a => alter (rejectP BadRconPasswordException) a (authPromises st)
       | None => authPromises st
       end)
      (cmdPromises st)
  ∧ ∀ a, authed st = Some a → authPromises st !! a = Some Pending →
      authPromises (dispatch TextDecoder_decode (-1) type payload st) !! a
      = Some (Rejected BadRconPasswordException).
Proof.
  rewrite dispatch_minus_one. unfold authed_reject. split.
  - by destruct st as [[a|] ? ? ? ? ?].
  - intros a Ha Hp. rewrite Ha. simpl.
    rewrite list_lookup_alter_eq, Hp. reflexivity.
Qed.

(** The state after [this.authed?.reject(e)], field by field. *)
Lemma authed_reject_eq {JsString : Type} (e : JsError) (s : @Rcon JsString) :
  authed_reject e s
  = mkRcon (authed s) (conn s) (outstandingData s) (requests s)
      (match authed s with
       | Some a => alter (rejectP e) a (authPromises s)
       | None => authPromises s
       end)
      (cmdPromises s).
Proof. by destruct s as [[a|] ? ? ? ? ?]. Qed.

(** Rejecting twice with the same error is rejecting once. *)
Lemma authed_reject_twice {JsString : Type} (e : JsError)
    (s : @Rcon JsString) :
  authed_reject e (authed_reject e s) = authed_reject e s.
Proof.
  destruct s as [[a|] cn od rq ap cp]; [|reflexivity].
  unfold authed_reject, set_authPromises. simpl. f_equal.
  apply list_eq. intros i. destruct (decide (i = a)) as [->|Hne].
  - rewrite !list_lookup_alter_eq. destruct (ap !! a) as [[| |]|]; done.
  - by rewrite !list_lookup_alter_ne.
Qed.

(** One or more packets with id -1 do what one does. *)
Lemma dispatchAll_minus_one {JsString : Type}
    (TextDecoder_decode : list byte → JsString) (packets : list Packet) :
  ∀ s : @Rcon JsString,
  Forall (λ p, pid p = -1) packets → packets ≠ [] →
  dispatchAll TextDecoder_decode packets s
  = authed_reject BadRconPasswordException s.
Proof.
  induction packets as [|p ps IH]; intros s Hall Hne; [done|].
  inversion_clear Hall as [|? ? Hp Hps].
  rewrite dispatchAll_cons, Hp, dispatch_minus_one.
  destruct ps as [|q ps']; [reflexivity|].
  rewrite IH by done. apply authed_reject_twice.
Qed.

(** C10: the id that [send] draws covers every 32-bit signed value, 0 and
    -1 included; when it is -1, every packet that comes back with that id
    takes the branch that rejects the authentication promise: it calls
    [reject] with [BadRconPasswordException] on the authentication promise
    of the connection, which goes from pending to rejected with that error,
    and changes nothing else, so the request stays in the map and the
    caller's promise stays pending whatever the packets carry, the marker
    included. *)
Theorem random_id_minus_one_never_resolved {JsString : Type}
    (TextDecoder_decode : list byte → JsString) :
  (∀ v, is_int32 v →
     ∃ id, length id = 4%nat ∧ DataView.getInt32 id 0 = Some v)
  ∧ DataView.getInt32 [x00; x00; x00; x00] 0 = Some 0
  ∧ DataView.getInt32 [xff; xff; xff; xff] 0 = Some (-1)
  ∧ ∀ (st : @Rcon JsString) (packets : list Packet),
      Forall (λ p, pid p = -1) packets →
      match send_register [xff; xff; xff; xff] st with
      | Some (sendPromise, idNumber, st1) =>
        idNumber = -1
        ∧ requests (dispatchAll TextDecoder_decode packets st1) !! (-1)
          = Some (mkRequest [] sendPromise)
        ∧ cmdPromises (dispatchAll TextDecoder_decode packets st1)
            !! sendPromise = Some Pending
        ∧ requests (dispatchAll TextDecoder_decode packets st1) = requests st1
        ∧ cmdPromises (dispatchAll TextDecoder_decode packets st1)
          = cmdPromises st1
        ∧ (∀ p, p ∈ packets → ∀ s : @Rcon JsString,
             dispatch TextDecoder_decode (pid p) (ptype p) (ppayload p) s
             = mkRcon (authed s) (conn s) (outstandingData s) (requests s)
                 (match authed s with
                  | Some a =>
                    alter (rejectP BadRconPasswordException) a (authPromises s)
                  | None => authPromises s
                  end)
                 (cmdPromises s))
        ∧ (packets ≠ [] →
           dispatchAll TextDecoder_decode packets st1
           = mkRcon (authed st) (conn st) (outstandingData st)
               (<[-1 := mkRequest [] sendPromise]> (requests st))
               (match authed st with
                | Some a =>
                  alter (rejectP BadRconPasswordException) a (authPromises st)
                | None => authPromises st
                end)
               (cmdPromises st ++ [Pending]))
        ∧ (packets ≠ [] → ∀ a, authed st = Some a →
           authPromises st !! a = Some Pending →
           authPromises (dispatchAll TextDecoder_decode packets st1) !! a
           = Some (Rejected BadRconPasswordException))
      | None => False
      end.
Proof.
  split; [|split; [reflexivity|split; [reflexivity|]]].
  - intros v Hv. exists (int32_le v). split; [reflexivity|].
    unfold int32_le, DataView.getInt32. simpl.
    rewrite int32_of_le_int32_le, toInt32_id by done. reflexivity.
  - intros st packets Hall.
    change (send_register [xff; xff; xff; xff] st)
      with (Some (length (cmdPromises st), -1,
              set_requests
                (<[-1 := mkRequest [] (length (cmdPromises st))]> (requests st))
                (set_cmdPromises (cmdPromises st ++ [Pending]) st))).
    set (st1 := set_requests _ _).
    assert (Hfix : requests (dispatchAll TextDecoder_decode packets st1)
                   = requests st1
                 ∧ cmdPromises (dispatchAll TextDecoder_decode packets st1)
                   = cmdPromises st1).
    { generalize st1. clear st1.
      induction Hall as [|p ps Hp _ IH]; intros s; [done|].
      rewrite dispatchAll_cons, Hp, dispatch_minus_one.
      destruct (IH (authed_reject BadRconPasswordException s)) as [-> ->].
      destruct (authed_reject_fields BadRconPasswordException s) as (? & ? & _).
      done. }
    assert (Hall1 : packets ≠ [] →
              dispatchAll TextDecoder_decode packets st1
              = mkRcon (authed st) (conn st) (outstandingData st)
                  (<[-1 := mkRequest [] (length (cmdPromises st))]>
                     (requests st))
                  (match authed st with
                   | Some a =>
                     alter (rejectP BadRconPasswordException) a
                           (authPromises st)
                   | None => authPromises st
                   end)
                  (cmdPromises st ++ [Pending])).
    { intros Hne.
      rewrite (dispatchAll_minus_one TextDecoder_decode packets st1 Hall Hne).
      rewrite authed_reject_eq. reflexivity. }
    destruct Hfix as [Hr Hc]. rewrite Hr, Hc.
    split; [reflexivity|]. split; [apply lookup_insert_eq|].
    split; [|split; [reflexivity|split; [reflexivity|split; [|split]]]].
    + simpl. rewrite lookup_app_r by done. by rewrite Nat.sub_diag.
    + intros p Hin s. rewrite Forall_forall in Hall.
      rewrite (Hall p Hin), dispatch_minus_one. apply authed_reject_eq.
    + exact Hall1.
    + intros Hne a Ha Hp. rewrite (Hall1 Hne), Ha. cbn [authPromises].
      by rewrite list_lookup_alter_eq, Hp.
Qed.

(** ** The zero length prefix *)

Section ZeroLength.
Context {JsString : Type}.
Variable TextDecoder_decode : list byte → JsString.

(** The loop never writes the carry-over buffer. *)
Lemma readLoop_outstandingData (fuel : nat) :
  ∀ (data : Uint8Array.t) (st st' : @Rcon JsString) (e : LoopEnd),
  readLoop (dispatch TextDecoder_decode) fuel data st = (st', e) →
  outstandingData st' = outstandingData st.
Proof.
  induction fuel as [|fuel IH]; intros data st st' e; cbn [readLoop].
  { by intros [= <- _]. }
  repeat case_match; try (by intros [= <- _]).
  intros Hloop. apply IH in Hloop.
  by rewrite Hloop, dispatch_outstandingData.
Qed.

Lemma takeOutstanding_cleared (data : Uint8Array.t) (st : @Rcon JsString) :
  outstandingData (takeOutstanding data st).2 = None.
Proof.
  unfold takeOutstanding. by destruct (outstandingData st) eqn:E.
Qed.

(** A buffer that starts with four zero bytes stops the loop at once. *)
Lemma readLoop_zero_prefix {S : Type} (handle : Z → Z → list byte → S → S)
    (fuel : nat) (data : Uint8Array.t) (s : S) :
  Uint8Array.length data ≠ 0%nat →
  DataView.getInt32 (Uint8Array.buffer data) 0 = Some 0 →
  readLoop handle (Datatypes.S fuel) data s = (s, ZeroLength).
Proof.
  intros Hn H0. cbn [readLoop]. rewrite H0.
  by destruct (Nat.eqb_spec (Uint8Array.length data) 0).
Qed.
End ZeroLength.

(** C5 (amended): when the loop of [readChunk] reads a zero length prefix,
    [readChunk] returns at once without an exception and with the packets
    before the prefix routed, and nothing is retained: the carry-over buffer
    is empty afterwards, so the zero prefix and the bytes after it, the
    carried-over bytes that were put in front included, are discarded. *)
Theorem readChunk_zero_length_discards {JsString : Type}
    (TextDecoder_decode : list byte → JsString)
    (data : Uint8Array.t) (st st' : @Rcon JsString) :
  readLoop (dispatch TextDecoder_decode)
    (Datatypes.S (Uint8Array.length (takeOutstanding data st).1))
    (takeOutstanding data st).1 (takeOutstanding data st).2
  = (st', ZeroLength) →
  readChunk TextDecoder_decode data st = (st', None)
  ∧ outstandingData st' = None.
Proof.
  intros H. split.
  - unfold readChunk. destruct (takeOutstanding data st) as [d s].
    cbn [fst snd] in H. by rewrite H.
  - apply readLoop_outstandingData in H.
    by rewrite H, takeOutstanding_cleared.
Qed.

Lemma readChunk_zero_length_discards_witness :
  let st : @Rcon (list byte) :=
    mkRcon None (Some 7%nat) (Some [x00]) ∅ [] [] in
  let data := Uint8Array.of_list [x00; x00; x00; x05; x06] in
  readChunk (λ s : list byte, s) data st
  = (mkRcon None (Some 7%nat) None ∅ [] [], None)
  ∧ outstandingData (mkRcon None (Some 7%nat) None ∅ []
                       ([] : list (Promise (list byte)))) = None.
Proof.
  apply (readChunk_zero_length_discards (λ s : list byte, s)
           (Uint8Array.of_list [x00; x00; x00; x05; x06])
           (mkRcon None (Some 7%nat) (Some [x00]) ∅ [] [])
           (mkRcon None (Some 7%nat) None ∅ [] [])).
  reflexivity.
Defined.

(** C5 as stated fails: after a zero length prefix the bytes are not kept
    for the next read.  First a chunk from the reader that starts with the
    prefix; then a chunk read while one byte is carried over. *)
Lemma zero_length_counterexample :
  let st : @Rcon (list byte) := mkRcon None (Some 7%nat) None ∅ [] [] in
  let carried : @Rcon (list byte) :=
    mkRcon None (Some 7%nat) (Some [x00]) ∅ [] [] in
  let chunks :=
    iterateReader DEFAULT_BUFFER_SIZE [[x00; x00; x00; x00; x01; x02]] in
  map Uint8Array.contents chunks = [[x00; x00; x00; x00; x01; x02]]
  ∧ feed (λ s : list byte, s) chunks st = (st, None)
  ∧ outstandingData (feed (λ s : list byte, s) chunks st).1
    ≠ Some [x00; x00; x00; x00; x01; x02]
  ∧ readChunk (λ s : list byte, s)
      (Uint8Array.of_list [x00; x00; x00; x05; x06]) carried = (st, None)
  ∧ outstandingData
      (readChunk (λ s : list byte, s)
         (Uint8Array.of_list [x00; x00; x00; x05; x06]) carried).1
    ≠ Some [x00; x00; x00; x00; x05; x06].
Proof.
  repeat split; try (vm_compute; reflexivity); vm_compute; discriminate.
Qed.

(** ** Chunk boundaries *)

(** C3: a stream of two frames (one fragment, then the marker, for the
    pending id 5) fed in one chunk routes both packets and resolves the
    request; the same bytes with the boundary two bytes into the second
    frame route the first packet only: the loop goes on with the two bytes
    left, [getInt32] on their fresh two-byte buffer throws a [RangeError],
    the read loop ends and the second packet is never decoded. *)
Theorem chunk_boundary_range_error :
  let st : @Rcon (list byte) :=
    mkRcon (Some 0%nat) (Some 7%nat) None (<[5 := mkRequest [] 0]> ∅)
           [Fulfilled ()] [Pending] in
  let P1 := frame [x05; x00; x00; x00] PacketType.RESPONSE_VALUE ["a"%byte] in
  let P2 := frame [x05; x00; x00; x00] PacketType.RESPONSE_VALUE FrameBuffer in
  let whole := iterateReader DEFAULT_BUFFER_SIZE [P1 ++ P2] in
  let parts :=
    iterateReader DEFAULT_BUFFER_SIZE [P1 ++ take 2 P2; drop 2 P2] in
  concat (map Uint8Array.contents whole)
  = concat (map Uint8Array.contents parts)
  ∧ map decodedPackets whole
    = [([mkPacket 5 0 ["a"%byte]; mkPacket 5 0 FrameBuffer], EndOfData)]
  ∧ feed (λ s : list byte, s) whole st
    = (mkRcon (Some 0%nat) (Some 7%nat) None ∅ [Fulfilled ()]
              [Fulfilled ["a"%byte]], None)
  ∧ map decodedPackets (take 1 parts)
    = [([mkPacket 5 0 ["a"%byte]], Thrown RangeError)]
  ∧ feed (λ s : list byte, s) parts st
    = (mkRcon (Some 0%nat) (Some 7%nat) None
              (<[5 := mkRequest ["a"%byte] 0]> ∅) [Fulfilled ()] [Pending],
       Some RangeError)
  ∧ read (λ s : list byte, s) parts st
    = (mkRcon None None None ∅ [Fulfilled ()]
              [Rejected RconConnectionClosedException], Some RangeError).
Proof. repeat split; vm_compute; reflexivity. Qed.

(** ** Teardown *)

Section Teardown.
Context {JsString : Type}.

Lemma reject_all_eq (e : JsError) (st : @Rcon JsString) :
  reject_all e st
  = set_cmdPromises
      (foldr (λ kr ps, alter (rejectP e) (promise kr.2) ps)
             (cmdPromises st) (map_to_list (requests st))) st.
Proof.
  unfold reject_all. generalize (map_to_list (requests st)).
  induction l as [|kr l IH]; simpl.
  - by destruct st.
  - rewrite IH. reflexivity.
Qed.

Lemma rejectP_idemp {V : Type} (e : JsError) (p : Promise V) :
  rejectP e (rejectP e p) = rejectP e p.
Proof. by destruct p. Qed.

(** Rejecting the promises of a list of requests: the promises named in
    the list get [reject], the others are left alone. *)
Lemma foldr_reject_lookup (e : JsError) (l : list (Z * Request))
    (ps : list (Promise JsString)) (h : nat) :
  foldr (λ kr ps, alter (rejectP e) (promise kr.2) ps) ps l !! h
  = if decide (h ∈ map (λ kr, promise kr.2) l)
    then rejectP e <$> ps !! h else ps !! h.
Proof.
  induction l as [|kr l IH]; cbn [foldr map].
  - case_decide as Hin; [|done]. by apply elem_of_nil in Hin.
  - destruct (decide (promise kr.2 = h)) as [->|Hne].
    + rewrite list_lookup_alter_eq, IH.
      rewrite (decide_True (P := _ ∈ _ :: _)) by apply list_elem_of_here.
      case_decide; [|done].
      destruct (ps !! h); simpl; [|done].
      by rewrite rejectP_idemp.
    + rewrite list_lookup_alter_ne, IH by done.
      case_decide as Hin; case_decide as Hin'; try done.
      * exfalso. apply Hin'. by apply list_elem_of_further.
      * exfalso. apply elem_of_cons in Hin'.
        destruct Hin' as [?|?]; [congruence|done].
Qed.

Lemma reject_all_request (e : JsError) (st : @Rcon JsString) (id : Z)
    (request : Request) :
  requests st !! id = Some request →
  cmdPromises (reject_all e st) !! promise request
  = rejectP e <$> cmdPromises st !! promise request.
Proof.
  intros Hreq. rewrite reject_all_eq. simpl.
  rewrite foldr_reject_lookup, decide_True; [done|].
  apply list_elem_of_fmap. exists (id, request). split; [done|].
  by apply elem_of_map_to_list.
Qed.

Lemma reject_all_fields (e : JsError) (st : @Rcon JsString) :
  authed (reject_all e st) = authed st
  ∧ conn (reject_all e st) = conn st
  ∧ outstandingData (reject_all e st) = outstandingData st
  ∧ requests (reject_all e st) = requests st
  ∧ authPromises (reject_all e st) = authPromises st.
Proof. rewrite reject_all_eq. done. Qed.

(** [disconnect] rejects every request with "read EOF" and empties the
    map; the transport and authentication references are cleared. *)
Lemma disconnect_rejects_requests (st : @Rcon JsString) :
  requests (disconnect st) = ∅
  ∧ conn (disconnect st) = None
  ∧ authed (disconnect st) = None
  ∧ ∀ id request, requests st !! id = Some request →
      cmdPromises (disconnect st) !! promise request
      = rejectP (Error "read EOF") <$> cmdPromises st !! promise request.
Proof.
  unfold disconnect.
  set (st2 := set_authed None (set_conn None st)).
  destruct (reject_all_fields (Error "read EOF") st2) as (Ha & Hc & _).
  repeat split; simpl; try done.
  intros id request Hreq.
  by rewrite (reject_all_request _ st2 id request Hreq).
Qed.

(** [disconnect] never calls [reject] on the authentication promise. *)
Lemma disconnect_authPromises (st : @Rcon JsString) :
  authPromises (disconnect st) = authPromises st.
Proof.
  unfold disconnect. simpl.
  by destruct (reject_all_fields (Error "read EOF")
                 (set_authed None (set_conn None st))) as (_ & _ & _ & _ & ->).
Qed.

(** The [finally] block of [read] on the current transport rejects the
    authentication promise and every request with
    [RconConnectionClosedException] and empties the map. *)
Lemma read_finally_rejects (c : option nat) (st : @Rcon JsString) :
  conn st = c →
  requests (read_finally c st) = ∅
  ∧ conn (read_finally c st) = None
  ∧ authed (read_finally c st) = None
  ∧ (∀ a, authed st = Some a →
       authPromises (read_finally c st) !! a
       = rejectP RconConnectionClosedException <$> authPromises st !! a)
  ∧ ∀ id request, requests st !! id = Some request →
      cmdPromises (read_finally c st) !! promise request
      = rejectP RconConnectionClosedException
          <$> cmdPromises st !! promise request.
Proof.
  intros Hc. unfold read_finally. rewrite decide_True by done.
  destruct st as [au cn od rq ap cp].
  set (st3 := set_authed None _).
  assert (Hst3 : st3 = mkRcon None None od rq
                   (match au with
                    | Some a => alter (rejectP RconConnectionClosedException) a ap
                    | None => ap
                    end) cp)
    by (subst st3; by destruct au).
  destruct (reject_all_fields RconConnectionClosedException st3)
    as (Ha & Hcn & _ & _ & Hap).
  cbn [requests conn authed authPromises cmdPromises set_requests].
  rewrite Ha, Hcn, Hap.
  split; [done|]. split; [by rewrite Hst3|]. split; [by rewrite Hst3|].
  split.
  - intros a [= ->]. rewrite Hst3. apply list_lookup_alter_eq.
  - intros id request Hreq.
    rewrite (reject_all_request _ st3 id request); by rewrite Hst3.
Qed.

(** Once the transport was replaced or cleared, the [finally] block
    touches nothing. *)
Lemma read_finally_superseded (c : option nat) (st : @Rcon JsString) :
  conn st ≠ c → read_finally c st = st.
Proof. intros Hc. unfold read_finally. by rewrite decide_False. Qed.
End Teardown.

(** C7: with the handshake in flight and two commands outstanding,
    [disconnect] rejects both commands with "read EOF" and empties the map,
    but the authentication promise is left pending; the teardown of the read
    loop at the end of the stream rejects it, with the two commands, with
    [RconConnectionClosedException]; and the read loop that ends after
    [disconnect] changes nothing any more. *)
Theorem disconnect_leaves_auth_pending :
  let st : @Rcon (list byte) :=
    mkRcon (Some 0%nat) (Some 7%nat) None
           (<[5 := mkRequest [] 0]> (<[6 := mkRequest [] 1]> ∅))
           [Pending] [Pending; Pending] in
  disconnect st
  = mkRcon None None None ∅ [Pending]
           [Rejected (Error "read EOF"); Rejected (Error "read EOF")]
  ∧ read (λ s : list byte, s) [] st
    = (mkRcon None None None ∅ [Rejected RconConnectionClosedException]
              [Rejected RconConnectionClosedException;
               Rejected RconConnectionClosedException], None)
  ∧ read_finally (Some 7%nat) (disconnect st) = disconnect st.
Proof. repeat split; vm_compute; reflexivity. Qed.

(** ** A failed write *)

Section Send.
Context {JsString : Type}.
Variable TextEncoder_encode : JsString → list byte.
Variable empty_string : JsString.

Lemma send_register_eq (id : list byte) (idNumber : Z) (st : @Rcon JsString) :
  DataView.getInt32 id 0 = Some idNumber →
  send_register id st
  = Some (length (cmdPromises st), idNumber,
          mkRcon (authed st) (conn st) (outstandingData st)
            (<[idNumber := mkRequest [] (length (cmdPromises st))]>
               (requests st))
            (authPromises st) (cmdPromises st ++ [Pending])).
Proof. intros H. unfold send_register. rewrite H. reflexivity. Qed.

(** [sendData] looks at the transport reference only. *)
Lemma sendData_conn (id : list byte) (data : JsString) (packetType : Z)
    (write : list byte → option JsError) (st st' : @Rcon JsString) :
  conn st' = conn st →
  sendData TextEncoder_encode id data packetType write st'
  = sendData TextEncoder_encode id data packetType write st.
Proof. intros H. unfold sendData. by rewrite H. Qed.

(** The [catch] block, whenever it runs: the promise of the request
    then registered under the id gets [reject], and nothing else
    changes; without such a request nothing changes at all. *)
Lemma send_catch_eq (idNumber : Z) (e : JsError) (st : @Rcon JsString) :
  send_catch idNumber e st
  = mkRcon (authed st) (conn st) (outstandingData st) (requests st)
      (authPromises st)
      (match requests st !! idNumber with
       | Some request => alter (rejectP e) (promise request) (cmdPromises st)
       | None => cmdPromises st
       end).
Proof.
  unfold send_catch. destruct (requests st !! idNumber); by destruct st.
Qed.
End Send.

(** C8: when the write of the command packet, or after it the write of
    the sentinel packet, fails with [e], [send] rejects the promise of that
    command with [e] and does nothing else: the transport and authentication
    references, the authentication promises and the carry-over buffer are
    unchanged, the promises of all other commands are unchanged, and the
    map of requests is the one before the call with this command's entry
    added (the entry stays registered); no other entry is touched. *)
Theorem send_write_failure_isolated {JsString : Type}
    (TextEncoder_encode : JsString → list byte) (empty_string : JsString)
    (id : list byte) (data : JsString) (packetType idNumber : Z)
    (write1 write2 : list byte → option JsError) (e : JsError)
    (st : @Rcon JsString) :
  DataView.getInt32 id 0 = Some idNumber →
  sendData TextEncoder_encode id data packetType write1 st = Some e
  ∨ (sendData TextEncoder_encode id data packetType write1 st = None
     ∧ sendData TextEncoder_encode id empty_string PacketType.RESPONSE_VALUE
         write2 st = Some e) →
  send TextEncoder_encode empty_string id data packetType write1 write2 st
  = Some (length (cmdPromises st),
          mkRcon (authed st) (conn st) (outstandingData st)
            (<[idNumber := mkRequest [] (length (cmdPromises st))]>
               (requests st))
            (authPromises st) (cmdPromises st ++ [Rejected e])).
Proof.
  intros Hnum Hfail. unfold send.
  rewrite (send_register_eq id idNumber st Hnum). cbn [mbind option_bind].
  set (st1 := mkRcon _ _ _ _ _ _).
  assert (Hcatch : send_catch idNumber e st1
            = mkRcon (authed st) (conn st) (outstandingData st)
                (<[idNumber := mkRequest [] (length (cmdPromises st))]>
                   (requests st))
                (authPromises st) (cmdPromises st ++ [Rejected e])).
  { rewrite send_catch_eq. subst st1.
    cbn [authed conn outstandingData requests authPromises cmdPromises].
    rewrite lookup_insert_eq. cbn [promise]. f_equal.
    rewrite <- (Nat.add_0_r (length (cmdPromises st))) at 1.
    by rewrite alter_app_r. }
  rewrite !(sendData_conn TextEncoder_encode id _ _ _ st st1) by done.
  destruct Hfail as [H1|[H1 H2]].
  - rewrite H1. by rewrite Hcatch.
  - rewrite H1, H2. by rewrite Hcatch.
Qed.

Lemma send_write_failure_isolated_witness :
  let st : @Rcon (list byte) :=
    mkRcon (Some 0%nat) (Some 7%nat) None (<[5 := mkRequest ["a"%byte] 0]> ∅)
           [Fulfilled ()] [Pending] in
  send (λ s : list byte, s) [] [x09; x00; x00; x00] ["s"%byte]
    PacketType.COMMAND (λ _, None) (λ _, Some (TransportError "BrokenPipe")) st
  = Some (1%nat,
          mkRcon (Some 0%nat) (Some 7%nat) None
            (<[9 := mkRequest [] 1]> (<[5 := mkRequest ["a"%byte] 0]> ∅))
            [Fulfilled ()] [Pending; Rejected (TransportError "BrokenPipe")]).
Proof.
  intros st.
  refine (send_write_failure_isolated (λ s : list byte, s) []
           [x09; x00; x00; x00] ["s"%byte] PacketType.COMMAND 9
           (λ _, None) (λ _, Some (TransportError "BrokenPipe"))
           (TransportError "BrokenPipe")
           st _ _).
  - reflexivity.
  - right. split; reflexivity.
Defined.


(** ** Well-formed streams *)

Lemma contents_view (l stale : list byte) :
  Uint8Array.contents (Uint8Array.mk (l ++ stale) 0 (length l)) = l.
Proof.
  pose proof (contents_prefix l [] stale) as E.
  by rewrite app_nil_l, Nat.add_0_r, app_nil_r in E.
Qed.

Lemma getInt32_prefix (a b : list byte) :
  (4 ≤ length a)%nat →
  DataView.getInt32 (a ++ b) 0 = DataView.getInt32 a 0.
Proof.
  destruct a as [|? [|? [|? [|? ?]]]]; simpl; try lia. reflexivity.
Qed.

Lemma getInt32_int32_le_0 (v : Z) :
  is_int32 v → DataView.getInt32 (int32_le v) 0 = Some v.
Proof.
  intros Hv. unfold int32_le, DataView.getInt32. simpl.
  by rewrite int32_of_le_int32_le, toInt32_id.
Qed.

Section Stream.
Context {S : Type}.
Variable handle : Z → Z → list byte → S → S.

(** A buffer made of complete frames is decoded packet by packet, in
    order, down to the empty buffer. *)
Lemma readLoop_frames (packets : list Packet) :
  ∀ (fuel : nat) (s : S),
  Forall wf_packet packets →
  (length (concat (map frame_of_packet packets)) < fuel)%nat →
  readLoop handle fuel
    (Uint8Array.of_list (concat (map frame_of_packet packets))) s
  = (foldl (λ s p, handle (pid p) (ptype p) (ppayload p) s) s packets,
     EndOfData).
Proof.
  induction packets as [|p ps IH]; intros fuel s Hwf Hfuel.
  - destruct fuel as [|fuel]; [simpl in Hfuel; lia|]. reflexivity.
  - inversion_clear Hwf as [|? ? (Hid & Hty & Hlen) Hps].
    destruct fuel as [|fuel]; [lia|].
    cbn [map concat] in *.
    change (frame_of_packet p)
      with (frame (int32_le (pid p)) (ptype p) (ppayload p)) in *.
    set (F := frame (int32_le (pid p)) (ptype p) (ppayload p)) in *.
    set (R := concat (map frame_of_packet ps)) in *.
    assert (HF : length F = (length (ppayload p) + 14)%nat)
      by (by apply frame_length).
    pose proof (readLoop_frame handle fuel (int32_le (pid p)) (ppayload p)
                  R [] (ptype p) (pid p) s
                  (getInt32_int32_le_0 _ Hid) eq_refl Hlen) as E.
    fold F in E. rewrite app_nil_r in E.
    unfold Uint8Array.of_list at 1. rewrite length_app, E.
    rewrite (toInt32_id _ Hty).
    rewrite length_app in Hfuel.
    rewrite IH by (done || lia). reflexivity.
Qed.
End Stream.

Lemma foldl_record_packets (packets acc : list Packet) :
  foldl (λ acc p, acc ++ [mkPacket (pid p) (ptype p) (ppayload p)]) acc packets
  = acc ++ packets.
Proof.
  revert acc. induction packets as [|p ps IH]; intros acc; simpl.
  - by rewrite app_nil_r.
  - rewrite IH, <- app_assoc. by destruct p.
Qed.

(** The packets of a well-formed stream that arrives in one chunk are
    listed in order. *)
Lemma decodedPackets_frames (packets : list Packet) :
  Forall wf_packet packets →
  decodedPackets (Uint8Array.of_list (concat (map frame_of_packet packets)))
  = (packets, EndOfData).
Proof.
  intros Hwf. unfold decodedPackets.
  rewrite readLoop_frames by (done || simpl; lia).
  by rewrite foldl_record_packets.
Qed.

(** ** Reassembly across two chunks *)

Section Reassembly.
Context {JsString : Type}.
Variable TextDecoder_decode : list byte → JsString.

(** [readChunk] on a well-formed stream that arrives in one chunk routes
    its packets in order and keeps nothing. *)
Lemma readChunk_frames (packets : list Packet) (st : @Rcon JsString) :
  Forall wf_packet packets → outstandingData st = None →
  readChunk TextDecoder_decode
    (Uint8Array.of_list (concat (map frame_of_packet packets))) st
  = (dispatchAll TextDecoder_decode packets st, None).
Proof.
  intros Hwf Hod. unfold readChunk, takeOutstanding. rewrite Hod.
  rewrite readLoop_frames by (done || simpl; lia). reflexivity.
Qed.

(** A frame cut after at least four of its bytes: the first chunk is
    kept whole, and the second chunk completes the packet.  [stale1] and
    [stale2] are what the reader's buffer holds beyond the chunks. *)
Lemma readChunk_frame_in_two_chunks (p : Packet) (a b stale1 stale2 : list byte)
    (st : @Rcon JsString) :
  wf_packet p → frame_of_packet p = a ++ b →
  (4 ≤ length a)%nat → b ≠ [] → outstandingData st = None →
  readChunk TextDecoder_decode (Uint8Array.mk (a ++ stale1) 0 (length a)) st
  = (set_outstandingData (Some a) st, None)
  ∧ readChunk TextDecoder_decode (Uint8Array.mk (b ++ stale2) 0 (length b))
      (set_outstandingData (Some a) st)
    = (dispatch TextDecoder_decode (pid p) (ptype p) (ppayload p)
         (set_outstandingData None st), None).
Proof.
  intros (Hid & Hty & Hlen) Hab Ha Hb Hod.
  pose proof (frame_length (int32_le (pid p)) (ptype p) (ppayload p) eq_refl)
    as HF.
  pose proof (frame_getInt32_0 (int32_le (pid p)) (ppayload p) [] (ptype p)
                eq_refl Hlen) as H0.
  rewrite app_nil_r in H0. fold (frame_of_packet p) in HF, H0.
  rewrite Hab, length_app in HF. rewrite Hab, getInt32_prefix in H0 by done.
  assert (0 < length b)%nat by (destruct b; simpl; [done|lia]).
  split.
  - unfold readChunk, takeOutstanding. rewrite Hod.
    cbn [readLoop Uint8Array.buffer Uint8Array.length].
    rewrite getInt32_prefix, H0, contents_view by done.
    destruct (Nat.eqb_spec (length a) 0) as [?|_]; [lia|].
    destruct (Z.eqb_spec (Z.of_nat (length (ppayload p)) + 10) 0) as [?|_];
      [lia|].
    destruct (Z.leb_spec 10 (Z.of_nat (length (ppayload p)) + 10)) as [_|?];
      [|lia].
    destruct (Z.leb_spec (Z.of_nat (length (ppayload p)) + 10 + 4)
                (Z.of_nat (length a))) as [?|_]; [lia|].
    reflexivity.
  - unfold readChunk, takeOutstanding.
    cbn [outstandingData set_outstandingData].
    rewrite contents_view, <- Hab.
    pose proof (readLoop_frames (dispatch TextDecoder_decode) [p]
                  (Datatypes.S (length (frame_of_packet p)))
                  (set_outstandingData None (set_outstandingData (Some a) st)))
      as E.
    cbn [map concat foldl] in E. rewrite app_nil_r in E.
    cbn [Uint8Array.length Uint8Array.of_list].
    rewrite E by ((constructor; [done|constructor]) || lia).
    reflexivity.
Qed.
End Reassembly.

(** ** Bytes of the reader's buffer beyond the chunk *)

(** The length prefix is read from the buffer under the chunk.  After a
    first chunk that starts with [11, 0, 0, 0], a chunk of the single byte 0
    (the first byte of the length 256 of the next frame) is read together
    with the three zero bytes the buffer still holds: the length found is 0,
    [readChunk] returns and the byte is lost; what follows of the frame is
    then taken for a huge incomplete packet and kept, and the packet is never
    routed.  The same byte in an array of its own throws a [RangeError]. *)
Lemma reader_buffer_stale_bytes :
  let st : @Rcon (list byte) :=
    mkRcon (Some 0%nat) (Some 7%nat) None (<[5 := mkRequest [] 0]> ∅)
           [Fulfilled ()] [Pending] in
  let P1 := frame [x05; x00; x00; x00] PacketType.RESPONSE_VALUE ["a"%byte] in
  let P2 := frame [x05; x00; x00; x00] PacketType.RESPONSE_VALUE
              (replicate 246 "b"%byte) in
  take 4 P2 = [x00; x01; x00; x00]
  ∧ (feed (λ s : list byte, s) (iterateReader DEFAULT_BUFFER_SIZE [P1 ++ P2]) st).1
    = mkRcon (Some 0%nat) (Some 7%nat) None
        (<[5 := mkRequest ("a"%byte :: replicate 246 "b"%byte) 0]> ∅)
        [Fulfilled ()] [Pending]
  ∧ feed (λ s : list byte, s)
      (iterateReader DEFAULT_BUFFER_SIZE [P1; take 1 P2; drop 1 P2]) st
    = (mkRcon (Some 0%nat) (Some 7%nat) (Some (drop 1 P2))
         (<[5 := mkRequest ["a"%byte] 0]> ∅) [Fulfilled ()] [Pending], None)
  ∧ readChunk (λ s : list byte, s) (Uint8Array.of_list (take 1 P2)) st
    = (st, Some RangeError).
Proof. repeat split; vm_compute; reflexivity. Qed.


(** ** What reading can and cannot change *)

Lemma fulfils_refl {V : Type} (p : Promise V) : fulfils p p.
Proof. by left. Qed.

Lemma fulfils_trans {V : Type} (p q r : Promise V) :
  fulfils p q → fulfils q r → fulfils p r.
Proof.
  unfold fulfils. intros [Hq|[Hp [v Hq]]] [Hr|[Hq' [w Hr]]]; subst;
    try discriminate; eauto.
Qed.

Lemma settles_refl {V : Type} (p : Promise V) : settles p p.
Proof. by left. Qed.

Lemma settles_trans {V : Type} (p q r : Promise V) :
  settles p q → settles q r → settles p r.
Proof.
  unfold settles. intros [Hq|Hp] [Hr|Hq']; subst; eauto.
Qed.

#[local] Instance fulfils_preorder {V : Type} : PreOrder (@fulfils V).
Proof.
  split; [exact fulfils_refl|]. intros p q r. apply fulfils_trans.
Qed.

#[local] Instance settles_preorder {V : Type} : PreOrder (@settles V).
Proof.
  split; [exact settles_refl|]. intros p q r. apply settles_trans.
Qed.

Lemma requests_kept_refl (m : gmap Z Request) : requests_kept m m.
Proof. intros id r Hr. exists r. done. Qed.

Lemma requests_kept_trans (m1 m2 m3 : gmap Z Request) :
  requests_kept m1 m2 → requests_kept m2 m3 → requests_kept m1 m3.
Proof.
  intros H12 H23 id r3 Hr3.
  destruct (H23 id r3 Hr3) as (r2 & Hr2 & Hp2 & Hd2).
  destruct (H12 id r2 Hr2) as (r1 & Hr1 & Hp1 & Hd1).
  exists r1. split; [done|]. split; [congruence|]. by etrans.
Qed.

Lemma Forall2_alter_diag {A : Type} (R : A → A → Prop) (f : A → A)
    (l : list A) (i : nat) :
  (∀ x, R x x) → (∀ x, R x (f x)) → Forall2 R l (alter f i l).
Proof.
  intros Hrefl Hf.
  assert (Hdiag : ∀ k : list A, Forall2 R k k)
    by (induction k; constructor; auto).
  apply Forall2_alter_r; [apply Hdiag|].
  intros x y Hx Hy _. rewrite Hx in Hy. injection Hy as <-. apply Hf.
Qed.

Section ReadsTo.
Context {JsString : Type}.
Variable TextDecoder_decode : list byte → JsString.

Lemma reads_to_refl (st : @Rcon JsString) : reads_to st st.
Proof. split; try done. apply requests_kept_refl. Qed.

Lemma reads_to_trans (st1 st2 st3 : @Rcon JsString) :
  reads_to st1 st2 → reads_to st2 st3 → reads_to st1 st3.
Proof.
  intros [Hc1 Ha1 Hr1 Hap1 Hcp1 Hu1] [Hc2 Ha2 Hr2 Hap2 Hcp2 Hu2]. split.
  - congruence.
  - congruence.
  - by eapply requests_kept_trans.
  - by etrans.
  - by etrans.
  - intros h Hh. rewrite Hu2, Hu1; [done|done|].
    intros id r2 Hr Heq. destruct (Hr1 id r2 Hr) as (r1 & Hr1' & Hp & _).
    apply (Hh id r1 Hr1'). congruence.
Qed.

Lemma reads_to_set_outstandingData (od : option (list byte))
    (st : @Rcon JsString) :
  reads_to st (set_outstandingData od st).
Proof. split; try done. apply requests_kept_refl. Qed.

Lemma authed_resolve_reads_to (st : @Rcon JsString) :
  reads_to st (authed_resolve st).
Proof.
  unfold authed_resolve. destruct (authed st) as [a|] eqn:Ha;
    [|apply reads_to_refl].
  split; simpl; try done; [apply requests_kept_refl|].
  apply Forall2_alter_diag; [apply settles_refl|].
  intros [| |]; (by left) || (by right).
Qed.

Lemma authed_reject_reads_to (e : JsError) (st : @Rcon JsString) :
  reads_to st (authed_reject e st).
Proof.
  unfold authed_reject. destruct (authed st) as [a|] eqn:Ha;
    [|apply reads_to_refl].
  split; simpl; try done; [apply requests_kept_refl|].
  apply Forall2_alter_diag; [apply settles_refl|].
  intros [| |]; (by left) || (by right).
Qed.

Lemma dispatch_reads_to (id type : Z) (payload : list byte)
    (st : @Rcon JsString) :
  reads_to st (dispatch TextDecoder_decode id type payload st).
Proof.
  unfold dispatch.
  destruct (negb (id =? -1)); [|apply authed_reject_reads_to].
  destruct ((type =? PacketType.RESPONSE_AUTH) && (id =? 0));
    [apply authed_resolve_reads_to|].
  destruct (type =? PacketType.RESPONSE_VALUE); [|apply reads_to_refl].
  destruct (requests st !! id) as [request|] eqn:Hreq; [|apply reads_to_refl].
  destruct (Uint8Array.equals FrameBuffer payload).
  - split; simpl; try done.
    + intros id' r' Hr'. apply lookup_delete_Some in Hr' as [_ Hr'].
      exists r'. done.
    + apply Forall2_alter_diag; [apply fulfils_refl|].
      intros [| |]; (by left) || (right; eauto).
    + intros h Hh. apply list_lookup_alter_ne. by apply (Hh id).
  - split; simpl; try done.
    intros id' r' Hr'. destruct (decide (id = id')) as [<-|Hne].
    + rewrite lookup_insert_eq in Hr'. injection Hr' as <-.
      exists request. split; [done|]. split; [done|].
      by apply prefix_app_r.
    + rewrite lookup_insert_ne in Hr' by done. exists r'. done.
Qed.
End ReadsTo.

(** A relation that every handling of a packet respects is respected by
    the whole loop. *)
Lemma readLoop_preserves {S : Type} (R : S → S → Prop)
    (handle : Z → Z → list byte → S → S) :
  (∀ s, R s s) → (∀ s1 s2 s3, R s1 s2 → R s2 s3 → R s1 s3) →
  (∀ id type payload s, R s (handle id type payload s)) →
  ∀ fuel data s, R s (readLoop handle fuel data s).1.
Proof.
  intros Hrefl Htrans Hh. induction fuel as [|fuel IH]; intros data s;
    cbn [readLoop]; [apply Hrefl|].
  repeat case_match; try apply Hrefl.
  eapply Htrans; [apply Hh|apply IH].
Qed.

Section ReadsToChunks.
Context {JsString : Type}.
Variable TextDecoder_decode : list byte → JsString.

Lemma readChunk_reads_to (data : Uint8Array.t) (st : @Rcon JsString) :
  reads_to st (readChunk TextDecoder_decode data st).1.
Proof.
  unfold readChunk.
  assert (H1 : reads_to st (takeOutstanding data st).2).
  { unfold takeOutstanding. destruct (outstandingData st);
      [apply reads_to_set_outstandingData|apply reads_to_refl]. }
  destruct (takeOutstanding data st) as [d s1]. cbn [snd] in H1.
  pose proof (readLoop_preserves reads_to (dispatch TextDecoder_decode)
                reads_to_refl reads_to_trans
                (dispatch_reads_to TextDecoder_decode)
                (Datatypes.S (Uint8Array.length d)) d s1) as H2.
  destruct (readLoop _ _ d s1) as [s2 e]. cbn [fst] in H2.
  pose proof (reads_to_trans _ _ _ H1 H2) as H3.
  destruct e; cbn [fst]; try done.
  eapply reads_to_trans; [exact H3|apply reads_to_set_outstandingData].
Qed.

Lemma feed_reads_to (chunks : list Uint8Array.t) :
  ∀ st : @Rcon JsString, reads_to st (feed TextDecoder_decode chunks st).1.
Proof.
  induction chunks as [|chunk rest IH]; intros st; cbn [feed];
    [apply reads_to_refl|].
  pose proof (readChunk_reads_to chunk st) as H1.
  destruct (readChunk TextDecoder_decode chunk st) as [st' [e|]];
    cbn [fst] in H1; [done|].
  eapply reads_to_trans; [exact H1|apply IH].
Qed.
End ReadsToChunks.

(** X1: whatever bytes the read loop is fed, it never changes the transport
    or the authentication reference and never adds a request: every request
    in the map afterwards was there before, with the same promise and with
    its bytes as a prefix of the bytes it holds now. *)
Theorem feed_keeps_references_and_requests {JsString : Type}
    (TextDecoder_decode : list byte → JsString)
    (chunks : list Uint8Array.t) (st : @Rcon JsString) :
  conn (feed TextDecoder_decode chunks st).1 = conn st
  ∧ authed (feed TextDecoder_decode chunks st).1 = authed st
  ∧ ∀ id r', requests (feed TextDecoder_decode chunks st).1 !! id = Some r' →
      ∃ r, requests st !! id = Some r ∧ promise r' = promise r
           ∧ data r `prefix_of` data r'.
Proof.
  destruct (feed_reads_to TextDecoder_decode chunks st) as [Hc Ha Hr _ _].
  done.
Qed.

(** X2: whatever bytes the read loop is fed, it creates no promise, never
    rejects a caller's promise and never changes a settled one: a caller's
    promise is as before or went from pending to fulfilled, and an
    authentication promise that was settled is unchanged. *)
Theorem feed_never_rejects_callers {JsString : Type}
    (TextDecoder_decode : list byte → JsString)
    (chunks : list Uint8Array.t) (st : @Rcon JsString) :
  length (cmdPromises (feed TextDecoder_decode chunks st).1)
  = length (cmdPromises st)
  ∧ (∀ h p, cmdPromises st !! h = Some p →
       cmdPromises (feed TextDecoder_decode chunks st).1 !! h = Some p
       ∨ (p = Pending
          ∧ ∃ v, cmdPromises (feed TextDecoder_decode chunks st).1 !! h
                 = Some (Fulfilled v)))
  ∧ length (authPromises (feed TextDecoder_decode chunks st).1)
    = length (authPromises st)
  ∧ (∀ a p, authPromises st !! a = Some p → p ≠ Pending →
       authPromises (feed TextDecoder_decode chunks st).1 !! a = Some p).
Proof.
  destruct (feed_reads_to TextDecoder_decode chunks st) as [_ _ _ Hap Hcp].
  split; [symmetry; by eapply Forall2_length|].
  split.
  { intros h p Hp.
    destruct (Forall2_lookup_l _ _ _ _ _ Hcp Hp) as (p' & Hp' & [Hq|[Hq [v Hv]]]);
      subst.
    - by left.
    - right. eauto. }
  split; [symmetry; by eapply Forall2_length|].
  intros a p Hp Hne.
  destruct (Forall2_lookup_l _ _ _ _ _ Hap Hp) as (p' & Hp' & [Hq|Hq]);
    subst; done.
Qed.

(** ** The carry-over buffer *)

Lemma slice_from_suffix (l : list byte) (b : Z) :
  Uint8Array.slice_from l b `suffix_of` l.
Proof.
  unfold Uint8Array.slice_from, Uint8Array.slice_list.
  set (k := Uint8Array.rel_index b (Z.of_nat (length l))).
  assert (Hk : 0 <= k <= Z.of_nat (length l)).
  { subst k. unfold Uint8Array.rel_index. destruct (b <? 0) eqn:E; lia. }
  assert (Hf : Uint8Array.rel_index (Z.of_nat (length l)) (Z.of_nat (length l))
               = Z.of_nat (length l)).
  { unfold Uint8Array.rel_index.
    destruct (Z.ltb_spec (Z.of_nat (length l)) 0); lia. }
  rewrite Hf, take_ge by (rewrite length_drop; lia).
  apply suffix_drop.
Qed.

Lemma readLoop_kept_suffix {S : Type} (handle : Z → Z → list byte → S → S)
    (fuel : nat) :
  ∀ (data : Uint8Array.t) (s s' : S) (kept : list byte),
  readLoop handle fuel data s = (s', Incomplete kept) →
  kept `suffix_of` Uint8Array.contents data.
Proof.
  induction fuel as [|fuel IH]; intros data s s' kept; cbn [readLoop];
    [done|].
  repeat case_match; try done.
  - intros Hloop. apply IH in Hloop. rewrite contents_of_list in Hloop.
    etrans; [exact Hloop|apply slice_from_suffix].
  - by intros [= _ <-].
Qed.

(** X3: the bytes that [readChunk] keeps for the next read are always an
    end piece of what it was given, the carried-over bytes followed by the
    chunk: nothing is kept twice, reordered or made up. *)
Theorem readChunk_keeps_a_suffix {JsString : Type}
    (TextDecoder_decode : list byte → JsString)
    (data : Uint8Array.t) (st : @Rcon JsString) (kept : list byte) :
  outstandingData (readChunk TextDecoder_decode data st).1 = Some kept →
  kept `suffix_of`
    (default [] (outstandingData st) ++ Uint8Array.contents data).
Proof.
  unfold readChunk.
  pose proof (takeOutstanding_cleared data st) as Hcl.
  assert (Hd : Uint8Array.contents (takeOutstanding data st).1
               = default [] (outstandingData st) ++ Uint8Array.contents data).
  { unfold takeOutstanding. destruct (outstandingData st); simpl; [|done].
    apply contents_of_list. }
  destruct (takeOutstanding data st) as [d s1]. cbn [fst snd] in *.
  destruct (readLoop _ _ d s1) as [s2 e] eqn:Hloop.
  pose proof (readLoop_outstandingData _ _ _ _ _ _ Hloop) as Hod.
  rewrite Hcl in Hod. rewrite <- Hd.
  destruct e; cbn [fst]; rewrite ?Hod; try done.
  intros [= <-]. by eapply readLoop_kept_suffix.
Qed.

Lemma readChunk_keeps_a_suffix_witness :
  [x0e; x00; x00; x00; x05]
  `suffix_of` (default [] (Some [x0e]) ++ [x00; x00; x00; x05]).
Proof.
  apply (readChunk_keeps_a_suffix (λ s : list byte, s)
           (Uint8Array.of_list [x00; x00; x00; x05])
           (mkRcon None (Some 7%nat) (Some [x0e]) ∅ [] [])).
  reflexivity.
Defined.

(** ** A length field that is not a packet length *)

Section BadLength.
Context {JsString : Type}.
Variable TextDecoder_decode : list byte → JsString.

(** With a non-zero length below 10 at the front of the buffer, the loop
    takes the [else] branch and keeps everything. *)
Lemma readLoop_bad_length {S : Type} (handle : Z → Z → list byte → S → S)
    (fuel : nat) (data : Uint8Array.t) (len : Z) (s : S) :
  Uint8Array.length data ≠ 0%nat →
  DataView.getInt32 (Uint8Array.buffer data) 0 = Some len →
  len ≠ 0 → len < 10 →
  readLoop handle (Datatypes.S fuel) data s
  = (s, Incomplete (Uint8Array.contents data)).
Proof.
  intros Hn Hlen H0 H10. cbn [readLoop]. rewrite Hlen.
  destruct (Nat.eqb_spec (Uint8Array.length data) 0) as [?|_]; [done|].
  destruct (Z.eqb_spec len 0) as [?|_]; [done|].
  destruct (Z.leb_spec 10 len) as [?|_]; [lia|]. reflexivity.
Qed.

Lemma feed_bad_length_carried (chunks : list Uint8Array.t) :
  ∀ (od : list byte) (len : Z) (st : @Rcon JsString),
  outstandingData st = Some od →
  DataView.getInt32 od 0 = Some len → len ≠ 0 → len < 10 →
  feed TextDecoder_decode chunks st
  = (set_outstandingData
       (Some (od ++ concat (map Uint8Array.contents chunks))) st, None).
Proof.
  induction chunks as [|chunk rest IH]; intros od len st Hod Hlen H0 H10.
  - simpl. rewrite app_nil_r. destruct st; simpl in *. by rewrite Hod.
  - pose proof (getInt32_Some_length _ _ _ Hlen) as Hl.
    cbn [feed map concat]. unfold readChunk, takeOutstanding. rewrite Hod.
    rewrite (readLoop_bad_length _ _ _ len).
    + rewrite contents_of_list.
      rewrite (IH (od ++ Uint8Array.contents chunk) len); try done.
      * by rewrite app_assoc.
      * by rewrite getInt32_prefix by lia.
    + simpl. rewrite length_app. lia.
    + simpl. by rewrite getInt32_prefix by lia.
    + done.
    + done.
Qed.
End BadLength.

(** X4: a chunk that starts with a length field other than 0 and below 10
    (negative ones included) blocks the connection for good: that chunk and
    every later one are only appended to the carry-over buffer, no packet is
    routed any more and no exception is raised. *)
Theorem feed_blocked_by_short_length {JsString : Type}
    (TextDecoder_decode : list byte → JsString)
    (first stale : list byte) (chunks : list Uint8Array.t) (len : Z)
    (st : @Rcon JsString) :
  outstandingData st = None →
  DataView.getInt32 first 0 = Some len → len ≠ 0 → len < 10 →
  feed TextDecoder_decode
    (Uint8Array.mk (first ++ stale) 0 (length first) :: chunks) st
  = (set_outstandingData
       (Some (first ++ concat (map Uint8Array.contents chunks))) st, None).
Proof.
  intros Hod Hlen H0 H10.
  pose proof (getInt32_Some_length _ _ _ Hlen) as Hl.
  cbn [feed]. unfold readChunk, takeOutstanding. rewrite Hod.
  rewrite (readLoop_bad_length _ _ _ len); try done.
  - rewrite contents_view.
    by rewrite (feed_bad_length_carried TextDecoder_decode chunks first len).
  - simpl. lia.
  - simpl. by rewrite getInt32_prefix by lia.
Qed.

Lemma feed_blocked_by_short_length_witness :
  feed (λ s : list byte, s)
    (Uint8Array.mk ([x09; x00; x00; x00; x05] ++ [x00]) 0 5
     :: [Uint8Array.of_list
           (frame [x05; x00; x00; x00] PacketType.RESPONSE_VALUE ["a"%byte])])
    (mkRcon None (Some 7%nat) None (<[5 := mkRequest [] 0]> ∅) [] [Pending])
  = (set_outstandingData
       (Some ([x09; x00; x00; x00; x05]
              ++ concat (map Uint8Array.contents
                   [Uint8Array.of_list
                      (frame [x05; x00; x00; x00] PacketType.RESPONSE_VALUE
                             ["a"%byte])])))
       (mkRcon None (Some 7%nat) None (<[5 := mkRequest [] 0]> ∅) []
               [Pending]), None).
Proof.
  apply (feed_blocked_by_short_length (λ s : list byte, s)
           [x09; x00; x00; x00; x05] [x00] _ 9).
  - reflexivity.
  - reflexivity.
  - lia.
  - lia.
Defined.

(** X5: the [while] loop of [readChunk] always ends by one of the exits of
    the source: every round that goes on drops at least 14 bytes, so with
    more fuel than bytes the fuel is never used up and the result is the
    same as with any other such fuel. *)
Theorem readLoop_terminates {S : Type} (handle : Z → Z → list byte → S → S)
    (fuel : nat) (data : Uint8Array.t) (s : S) :
  (Uint8Array.length data < fuel)%nat →
  (readLoop handle fuel data s).2 ≠ OutOfFuel
  ∧ readLoop handle fuel data s
    = readLoop handle (Datatypes.S (Uint8Array.length data)) data s.
Proof.
  intros Hf. split; [by apply readLoop_total|].
  apply readLoop_fuel; lia.
Qed.

Lemma readLoop_terminates_witness :
  let data :=
    Uint8Array.of_list
      (frame [x05; x00; x00; x00] PacketType.RESPONSE_VALUE ["a"%byte]
       ++ [x0e; x00]) in
  let handle := λ id type payload acc, acc ++ [mkPacket id type payload] in
  (readLoop handle 40 data []).2 ≠ OutOfFuel
  ∧ readLoop handle 40 data []
    = readLoop handle (Datatypes.S (Uint8Array.length data)) data [].
Proof.
  apply (readLoop_terminates
           (λ id type payload acc, acc ++ [mkPacket id type payload]) 40).
  simpl. lia.
Defined.

(** The same for a chunk that is a view of a longer buffer: the bytes
    beyond the view play no part. *)
Lemma readLoop_frames_view {S : Type} (handle : Z → Z → list byte → S → S)
    (packets : list Packet) (stale : list byte) (fuel : nat) (s : S) :
  Forall wf_packet packets →
  (length (concat (map frame_of_packet packets)) < fuel)%nat →
  readLoop handle fuel
    (Uint8Array.mk (concat (map frame_of_packet packets) ++ stale) 0
                   (length (concat (map frame_of_packet packets)))) s
  = (foldl (λ s p, handle (pid p) (ptype p) (ppayload p) s) s packets,
     EndOfData).
Proof.
  intros Hwf Hfuel. destruct packets as [|p ps].
  - destruct fuel as [|fuel]; [simpl in Hfuel; lia|]. reflexivity.
  - inversion_clear Hwf as [|? ? (Hid & Hty & Hlen) Hps].
    destruct fuel as [|fuel]; [lia|].
    cbn [map concat] in *.
    change (frame_of_packet p)
      with (frame (int32_le (pid p)) (ptype p) (ppayload p)) in *.
    set (F := frame (int32_le (pid p)) (ptype p) (ppayload p)) in *.
    pose proof (readLoop_frame handle fuel (int32_le (pid p)) (ppayload p)
                  (concat (map frame_of_packet ps)) stale (ptype p) (pid p) s
                  (getInt32_int32_le_0 _ Hid) eq_refl Hlen) as E.
    fold F in E.
    assert (HF : length F = (length (ppayload p) + 14)%nat)
      by (by apply frame_length).
    rewrite length_app in Hfuel |- *. rewrite <- app_assoc, E.
    rewrite (toInt32_id _ Hty).
    rewrite readLoop_frames by (done || lia). reflexivity.
Qed.

Lemma readChunk_frames_view {JsString : Type}
    (TextDecoder_decode : list byte → JsString)
    (packets : list Packet) (stale : list byte) (st : @Rcon JsString) :
  Forall wf_packet packets → outstandingData st = None →
  readChunk TextDecoder_decode
    (Uint8Array.mk (concat (map frame_of_packet packets) ++ stale) 0
                   (length (concat (map frame_of_packet packets)))) st
  = (dispatchAll TextDecoder_decode packets st, None).
Proof.
  intros Hwf Hod. unfold readChunk, takeOutstanding. rewrite Hod.
  cbn [Uint8Array.length].
  rewrite readLoop_frames_view by (done || lia). reflexivity.
Qed.

Lemma dispatchAll_outstandingData {JsString : Type}
    (TextDecoder_decode : list byte → JsString) (packets : list Packet) :
  ∀ st : @Rcon JsString,
  outstandingData (dispatchAll TextDecoder_decode packets st)
  = outstandingData st.
Proof.
  induction packets as [|p ps IH]; intros st; [done|].
  rewrite dispatchAll_cons, IH. apply dispatch_outstandingData.
Qed.

(** X6: a chunk made of complete frames of well-formed packets (id and
    type in the 32-bit signed range, payload length plus 10 below 2^31),
    read with no bytes carried over, is decoded into exactly those packets
    in order; [readChunk] routes them one after the other, raises nothing
    and keeps nothing.  The bytes the reader's buffer holds beyond the chunk
    do not matter. *)
Theorem readChunk_routes_whole_stream {JsString : Type}
    (TextDecoder_decode : list byte → JsString)
    (packets : list Packet) (stale : list byte) (st : @Rcon JsString) :
  Forall wf_packet packets →
  outstandingData st = None →
  decodedPackets
    (Uint8Array.mk (concat (map frame_of_packet packets) ++ stale) 0
                   (length (concat (map frame_of_packet packets))))
  = (packets, EndOfData)
  ∧ readChunk TextDecoder_decode
      (Uint8Array.mk (concat (map frame_of_packet packets) ++ stale) 0
                     (length (concat (map frame_of_packet packets)))) st
    = (dispatchAll TextDecoder_decode packets st, None)
  ∧ outstandingData (dispatchAll TextDecoder_decode packets st) = None.
Proof.
  intros Hwf Hod. split.
  - unfold decodedPackets. cbn [Uint8Array.length].
    rewrite readLoop_frames_view by (done || lia).
    by rewrite foldl_record_packets.
  - split; [by apply readChunk_frames_view|].
    by rewrite dispatchAll_outstandingData.
Qed.

Lemma readChunk_routes_whole_stream_witness :
  let st : @Rcon (list byte) :=
    mkRcon (Some 0%nat) (Some 7%nat) None (<[5 := mkRequest [] 0]> ∅)
           [Pending] [Pending] in
  let packets :=
    [mkPacket 0 PacketType.RESPONSE_AUTH []; mkPacket 5 0 ["a"%byte];
     mkPacket 5 0 FrameBuffer] in
  let chunk :=
    Uint8Array.mk (concat (map frame_of_packet packets) ++ [xff; xff]) 0
                  (length (concat (map frame_of_packet packets))) in
  decodedPackets chunk = (packets, EndOfData)
  ∧ readChunk (λ s : list byte, s) chunk st
    = (dispatchAll (λ s : list byte, s) packets st, None)
  ∧ outstandingData (dispatchAll (λ s : list byte, s) packets st) = None.
Proof.
  intros st packets.
  apply (readChunk_routes_whole_stream (λ s : list byte, s) packets
           [xff; xff] st).
  - repeat (apply Forall_cons_2;
              [unfold wf_packet, is_int32, PacketType.RESPONSE_AUTH,
                 FrameBuffer; cbn [pid ptype ppayload length]; lia|]).
    apply Forall_nil_2.
  - reflexivity.
Defined.

(** X7: a frame of a well-formed packet that arrives cut in two, with at
    least four bytes in the first chunk, is put together again: the first
    chunk is kept whole and nothing is routed, the second chunk completes
    the packet, which is routed, and nothing is kept after it.  The bytes
    the reader's buffer holds beyond either chunk do not matter. *)
Theorem readChunk_reassembles_split_frame {JsString : Type}
    (TextDecoder_decode : list byte → JsString)
    (p : Packet) (a b stale1 stale2 : list byte) (st : @Rcon JsString) :
  wf_packet p → frame_of_packet p = a ++ b →
  (4 ≤ length a)%nat → b ≠ [] → outstandingData st = None →
  readChunk TextDecoder_decode (Uint8Array.mk (a ++ stale1) 0 (length a)) st
  = (set_outstandingData (Some a) st, None)
  ∧ readChunk TextDecoder_decode (Uint8Array.mk (b ++ stale2) 0 (length b))
      (set_outstandingData (Some a) st)
    = (dispatch TextDecoder_decode (pid p) (ptype p) (ppayload p) st, None).
Proof.
  intros Hwf Hab Ha Hb Hod.
  destruct (readChunk_frame_in_two_chunks TextDecoder_decode p a b stale1
              stale2 st Hwf Hab Ha Hb Hod) as [H1 H2].
  split; [exact H1|]. rewrite H2.
  destruct st; simpl in Hod; subst. reflexivity.
Qed.

Lemma readChunk_reassembles_split_frame_witness :
  let st : @Rcon (list byte) :=
    mkRcon None (Some 7%nat) None (<[5 := mkRequest [] 0]> ∅) [] [Pending] in
  let p := mkPacket 5 0 ["a"%byte] in
  let a := take 6 (frame_of_packet p) in
  let b := drop 6 (frame_of_packet p) in
  readChunk (λ s : list byte, s) (Uint8Array.mk (a ++ [xff]) 0 (length a)) st
  = (set_outstandingData (Some a) st, None)
  ∧ readChunk (λ s : list byte, s) (Uint8Array.mk (b ++ []) 0 (length b))
      (set_outstandingData (Some a) st)
    = (dispatch (λ s : list byte, s) (pid p) (ptype p) (ppayload p) st, None).
Proof.
  apply (readChunk_reassembles_split_frame (λ s : list byte, s)
           (mkPacket 5 0 ["a"%byte])).
  - unfold wf_packet, is_int32. simpl. lia.
  - reflexivity.
  - simpl. lia.
  - discriminate.
  - reflexivity.
Defined.

(** X8: a caller's promise that no request of the map refers to is not
    touched by the read loop, whatever bytes arrive: a promise is settled by
    reading only through its entry in the map. *)
Theorem feed_settles_through_the_map_only {JsString : Type}
    (TextDecoder_decode : list byte → JsString)
    (chunks : list Uint8Array.t) (st : @Rcon JsString) (h : nat) :
  (∀ id r, requests st !! id = Some r → promise r ≠ h) →
  cmdPromises (feed TextDecoder_decode chunks st).1 !! h
  = cmdPromises st !! h.
Proof.
  intros Hh.
  by apply (reads_unreferenced _ _ (feed_reads_to TextDecoder_decode chunks st)).
Qed.

Lemma feed_settles_through_the_map_only_witness :
  cmdPromises
    (feed (λ s : list byte, s)
       [Uint8Array.of_list
          (frame_of_packet (mkPacket 5 0 FrameBuffer)
           ++ frame_of_packet (mkPacket 6 0 FrameBuffer))]
       (mkRcon None (Some 7%nat) None (<[5 := mkRequest [] 0]> ∅) []
               [Pending; Pending])).1 !! 1%nat
  = ([Pending; Pending] : list (Promise (list byte))) !! 1%nat.
Proof.
  apply (feed_settles_through_the_map_only (λ s : list byte, s) _
           (mkRcon None (Some 7%nat) None (<[5 := mkRequest [] 0]> ∅) []
                   [Pending; Pending]) 1).
  intros id r Hr. cbn [requests] in Hr.
  destruct (decide (id = 5)) as [->|Hne].
  - rewrite lookup_insert_eq in Hr. injection Hr as <-. simpl. lia.
  - rewrite lookup_insert_ne in Hr by done. by rewrite lookup_empty in Hr.
Defined.

(** ** Teardown, in general *)

Section TeardownGeneral.
Context {JsString : Type}.

Lemma reject_all_other (e : JsError) (st : @Rcon JsString) (h : nat) :
  (∀ id r, requests st !! id = Some r → promise r ≠ h) →
  cmdPromises (reject_all e st) !! h = cmdPromises st !! h.
Proof.
  intros Hh. rewrite reject_all_eq. simpl.
  rewrite foldr_reject_lookup, decide_False; [done|].
  intros Hin. apply list_elem_of_fmap in Hin as ([id r] & Heq & Hin).
  apply elem_of_map_to_list in Hin. by apply (Hh id r).
Qed.

Lemma reject_all_length (e : JsError) (st : @Rcon JsString) :
  length (cmdPromises (reject_all e st)) = length (cmdPromises st).
Proof.
  rewrite reject_all_eq. simpl. generalize (map_to_list (requests st)).
  induction l as [|kr l IH]; simpl; [done|]. by rewrite length_alter.
Qed.

Lemma reject_all_empty (e : JsError) (st : @Rcon JsString) :
  requests st = ∅ → reject_all e st = st.
Proof.
  intros Hr. unfold reject_all. rewrite Hr, map_to_list_empty. reflexivity.
Qed.

Lemma torn_down_disconnect (st : @Rcon JsString) :
  conn st = None → authed st = None → requests st = ∅ → disconnect st = st.
Proof.
  intros Hc Ha Hr. destruct st as [au cn od rq ap cp]. simpl in *. subst.
  unfold disconnect. by rewrite reject_all_empty.
Qed.
Lemma disconnect_outstandingData (st : @Rcon JsString) :
  outstandingData (disconnect st) = outstandingData st.
Proof.
  unfold disconnect. simpl.
  by destruct (reject_all_fields (Error "read EOF")
                 (set_authed None (set_conn None st))) as (_ & _ & -> & _).
Qed.
End TeardownGeneral.

(** X9: [disconnect] clears the transport and authentication references
    and empties the map; the promise of every request that was in the map
    gets [reject] with the error "read EOF" (a promise already settled keeps
    its value), every other caller's promise and all authentication promises
    are untouched, and the carry-over buffer is not cleared. *)
Theorem disconnect_rejects_every_request {JsString : Type}
    (st : @Rcon JsString) :
  conn (disconnect st) = None
  ∧ authed (disconnect st) = None
  ∧ requests (disconnect st) = ∅
  ∧ outstandingData (disconnect st) = outstandingData st
  ∧ authPromises (disconnect st) = authPromises st
  ∧ (∀ id request, requests st !! id = Some request →
       cmdPromises (disconnect st) !! promise request
       = rejectP (Error "read EOF") <$> cmdPromises st !! promise request)
  ∧ (∀ h, (∀ id r, requests st !! id = Some r → promise r ≠ h) →
       cmdPromises (disconnect st) !! h = cmdPromises st !! h).
Proof.
  destruct (disconnect_rejects_requests st) as (Hr & Hc & Ha & Hrej).
  split; [done|]. split; [done|]. split; [done|].
  split.
  { unfold disconnect. simpl.
    by destruct (reject_all_fields (Error "read EOF")
                   (set_authed None (set_conn None st))) as (_ & _ & -> & _). }
  split; [apply disconnect_authPromises|]. split; [exact Hrej|].
  intros h Hh. unfold disconnect. simpl.
  by rewrite (reject_all_other _ (set_authed None (set_conn None st)) h).
Qed.

Lemma read_tears_down_aux {JsString : Type}
    (TextDecoder_decode : list byte → JsString)
    (chunks : list Uint8Array.t) (c : nat) (st : @Rcon JsString) :
  conn st = Some c →
  conn (read TextDecoder_decode chunks st).1 = None
  ∧ requests (read TextDecoder_decode chunks st).1 = ∅
  ∧ (read TextDecoder_decode chunks st).2
    = (feed TextDecoder_decode chunks st).2.
Proof.
  intros Hc. unfold read. rewrite Hc.
  destruct (feed_reads_to TextDecoder_decode chunks st) as [Hc' _ _ _ _ _].
  destruct (feed TextDecoder_decode chunks st) as [sf err]. cbn [fst snd] in *.
  rewrite Hc in Hc'.
  destruct (read_finally_rejects (Some c) sf Hc') as (Hr & Hcn & _).
  done.
Qed.

(** X10: when the read loop ends, by the end of the stream or by an
    exception of [readChunk], and the transport is still the one it was
    started on, the teardown clears the transport and authentication
    references and empties the map, the authentication promise and the
    promise of every request then in the map get [reject] with
    [RconConnectionClosedException], and the exception of [readChunk], if
    any, is the one [read] ends with. *)
Theorem read_tears_down {JsString : Type}
    (TextDecoder_decode : list byte → JsString)
    (chunks : list Uint8Array.t) (c : nat) (st : @Rcon JsString) :
  conn st = Some c →
  conn (read TextDecoder_decode chunks st).1 = None
  ∧ authed (read TextDecoder_decode chunks st).1 = None
  ∧ requests (read TextDecoder_decode chunks st).1 = ∅
  ∧ (read TextDecoder_decode chunks st).2
    = (feed TextDecoder_decode chunks st).2
  ∧ (∀ a, authed st = Some a →
       authPromises (read TextDecoder_decode chunks st).1 !! a
       = rejectP RconConnectionClosedException
           <$> authPromises (feed TextDecoder_decode chunks st).1 !! a)
  ∧ (∀ id request,
       requests (feed TextDecoder_decode chunks st).1 !! id = Some request →
       cmdPromises (read TextDecoder_decode chunks st).1 !! promise request
       = rejectP RconConnectionClosedException
           <$> cmdPromises (feed TextDecoder_decode chunks st).1
               !! promise request).
Proof.
  intros Hc. unfold read. rewrite Hc.
  destruct (feed_reads_to TextDecoder_decode chunks st) as [Hc' Ha' _ _ _ _].
  destruct (feed TextDecoder_decode chunks st) as [sf err]. cbn [fst snd] in *.
  rewrite Hc in Hc'.
  destruct (read_finally_rejects (Some c) sf Hc') as (Hr & Hcn & Hau & Hap & Hcp).
  split; [done|]. split; [done|]. split; [done|]. split; [done|].
  split; [|exact Hcp].
  intros a Hauth. apply Hap. congruence.
Qed.

Lemma read_tears_down_witness :
  let st : @Rcon (list byte) :=
    mkRcon (Some 0%nat) (Some 7%nat) None (<[5 := mkRequest [] 0]> ∅)
           [Pending] [Pending] in
  let chunks := [Uint8Array.of_list (frame_of_packet (mkPacket 5 0 ["a"%byte]))] in
  conn (read (λ s : list byte, s) chunks st).1 = None
  ∧ authed (read (λ s : list byte, s) chunks st).1 = None
  ∧ requests (read (λ s : list byte, s) chunks st).1 = ∅
  ∧ (read (λ s : list byte, s) chunks st).2
    = (feed (λ s : list byte, s) chunks st).2
  ∧ (∀ a, authed st = Some a →
       authPromises (read (λ s : list byte, s) chunks st).1 !! a
       = rejectP RconConnectionClosedException
           <$> authPromises (feed (λ s : list byte, s) chunks st).1 !! a)
  ∧ (∀ id request,
       requests (feed (λ s : list byte, s) chunks st).1 !! id = Some request →
       cmdPromises (read (λ s : list byte, s) chunks st).1 !! promise request
       = rejectP RconConnectionClosedException
           <$> cmdPromises (feed (λ s : list byte, s) chunks st).1
               !! promise request).
Proof.
  intros st chunks.
  apply (read_tears_down (λ s : list byte, s) chunks 7 st).
  reflexivity.
Defined.

(** X11: once [disconnect] has run, the read loop of the old transport
    changes nothing when it ends, and a second [disconnect] changes nothing
    either. *)
Theorem disconnect_is_final {JsString : Type} (c : nat) (st : @Rcon JsString) :
  read_finally (Some c) (disconnect st) = disconnect st
  ∧ disconnect (disconnect st) = disconnect st.
Proof.
  destruct (disconnect_rejects_requests st) as (Hr & Hc & Ha & _).
  split.
  - apply read_finally_superseded. by rewrite Hc.
  - by apply torn_down_disconnect.
Qed.

(** ** Connecting *)

Lemma getInt32_is_int32 (buf : list byte) (off : nat) (v : Z) :
  DataView.getInt32 buf off = Some v → is_int32 v.
Proof.
  unfold DataView.getInt32. intros H.
  destruct (drop off buf) as [|b0 [|b1 [|b2 [|b3 ?]]]]; try discriminate.
  injection H as <-. apply toInt32_range.
Qed.

Section ClientFacts.
Context {JsString : Type}.
Variable TextEncoder_encode : JsString → list byte.
Variable empty_string : JsString.

(** With four bytes of id and a transport that takes every write,
    [sendData] does not throw. *)
Lemma sendData_ok (id : list byte) (data : JsString) (packetType : Z)
    (write : list byte → option JsError) (st : @Rcon JsString) :
  length id = 4%nat → (∀ b, write b = None) →
  sendData TextEncoder_encode id data packetType write st = None.
Proof.
  intros Hid Hw. unfold sendData.
  rewrite (sendData_buffer_eq TextEncoder_encode id data packetType Hid).
  by destruct (conn st).
Qed.

(** With four bytes of id, an open transport and a write that fails,
    [sendData] throws what the write throws. *)
Lemma sendData_fails (id : list byte) (data : JsString) (packetType : Z)
    (write : list byte → option JsError) (e : JsError) (c : nat)
    (st : @Rcon JsString) :
  length id = 4%nat → (∀ b, write b = Some e) → conn st = Some c →
  sendData TextEncoder_encode id data packetType write st = Some e.
Proof.
  intros Hid Hw Hc. unfold sendData.
  rewrite (sendData_buffer_eq TextEncoder_encode id data packetType Hid).
  by rewrite Hc.
Qed.
End ClientFacts.

(** X12: when [Deno.connect] fails, [sendCmd] on a connection without
    transport throws at once: [BadIpException] for
    [ConnectionRefused] and [ConnectionReset], and the very exception for
    any other transport error.  No request is registered and no promise is
    made for the caller; the transport stays unset, so the next call dials
    again, and the authentication promise made for this attempt stays
    pending. *)
Theorem sendCmd_unreachable_host {JsString : Type}
    (TextEncoder_encode : JsString → list byte) (empty_string : JsString)
    (password cmd : JsString) (err : JsError)
    (writeAuth write1 write2 : list byte → option JsError) (id : list byte)
    (st : @Rcon JsString) :
  conn st = None →
  sendCmd TextEncoder_encode empty_string password (inr err) writeAuth id cmd
    write1 write2 st
  = (mkRcon (Some (length (authPromises st))) None (outstandingData st)
       (requests st) (authPromises st ++ [Pending]) (cmdPromises st),
     SendThrows (connect_catch err))
  ∧ connect_catch (TransportError "ConnectionRefused") = BadIpException
  ∧ connect_catch (TransportError "ConnectionReset") = BadIpException
  ∧ (∀ name, name ≠ "ConnectionRefused" → name ≠ "ConnectionReset" →
       connect_catch (TransportError name) = TransportError name).
Proof.
  intros Hc. split.
  - unfold sendCmd, connect. rewrite Hc.
    destruct st; simpl in *; subst. reflexivity.
  - split; [reflexivity|]. split; [reflexivity|].
    intros name H1 H2. unfold connect_catch.
    destruct (String.eqb_spec name "ConnectionRefused") as [?|_]; [done|].
    destruct (String.eqb_spec name "ConnectionReset") as [?|_]; [done|].
    reflexivity.
Qed.

Lemma sendCmd_unreachable_host_witness :
  sendCmd (λ s : list byte, s) [] ["p"%byte]
    (inr (TransportError "ConnectionRefused")) (λ _, None)
    [x05; x00; x00; x00] ["s"%byte] (λ _, None) (λ _, None) Rcon_new
  = (mkRcon (Some 0%nat) None None ∅ [Pending] [],
     SendThrows (connect_catch (TransportError "ConnectionRefused")))
  ∧ connect_catch (TransportError "ConnectionRefused") = BadIpException
  ∧ connect_catch (TransportError "ConnectionReset") = BadIpException
  ∧ (∀ name, name ≠ "ConnectionRefused" → name ≠ "ConnectionReset" →
       connect_catch (TransportError name) = TransportError name).
Proof.
  apply (sendCmd_unreachable_host (λ s : list byte, s) [] ["p"%byte]
           ["s"%byte] (TransportError "ConnectionRefused") (λ _, None)
           (λ _, None) (λ _, None) [x05; x00; x00; x00] Rcon_new).
  reflexivity.
Defined.

(** X13: on a connection whose transport is open, [sendCmd] neither dials
    nor writes the AUTH packet again and goes by the authentication promise
    of the connection: rejected, [sendCmd] throws its error and changes
    nothing; pending, [sendCmd] waits for it and changes nothing; fulfilled,
    the command is registered and written as by [send], on the same
    transport. *)
Theorem sendCmd_on_open_connection {JsString : Type}
    (TextEncoder_encode : JsString → list byte) (empty_string : JsString)
    (password cmd : JsString) (dial : nat + JsError)
    (writeAuth write1 write2 : list byte → option JsError) (id : list byte)
    (c a : nat) (st : @Rcon JsString) :
  conn st = Some c → authed st = Some a →
  (∀ e, authPromises st !! a = Some (Rejected e) →
     sendCmd TextEncoder_encode empty_string password dial writeAuth id cmd
       write1 write2 st = (st, SendThrows e))
  ∧ (authPromises st !! a = Some Pending →
     sendCmd TextEncoder_encode empty_string password dial writeAuth id cmd
       write1 write2 st = (st, SendWaits a))
  ∧ (authPromises st !! a = Some (Fulfilled ()) →
     ∀ sendPromise st',
       send TextEncoder_encode empty_string id cmd PacketType.COMMAND
         write1 write2 st = Some (sendPromise, st') →
       sendCmd TextEncoder_encode empty_string password dial writeAuth id cmd
         write1 write2 st = (st', Sent sendPromise)
       ∧ conn st' = Some c ∧ authed st' = Some a
       ∧ authPromises st' = authPromises st).
Proof.
  intros Hc Ha. unfold sendCmd, connect. rewrite Hc, Ha.
  split; [|split].
  - intros e He. by rewrite He.
  - intros Hp. by rewrite Hp.
  - intros Hf sendPromise st' Hsend. rewrite Hf, Hsend.
    split; [reflexivity|].
    unfold send in Hsend.
    destruct (send_register id st) as [[[h idNumber] st1]|] eqn:Hreg;
      [|discriminate].
    unfold send_register in Hreg.
    destruct (DataView.getInt32 id 0) as [n|]; [|discriminate].
    injection Hreg as <- <- <-. cbn [mbind option_bind] in Hsend.
    repeat case_match; injection Hsend as <- <-;
      rewrite ?send_catch_eq; simpl; done.
Qed.

Lemma sendCmd_on_open_connection_witness :
  let st : @Rcon (list byte) :=
    mkRcon (Some 0%nat) (Some 7%nat) None ∅
           [Rejected BadRconPasswordException] [] in
  sendCmd (λ s : list byte, s) [] ["p"%byte] (inl 8%nat) (λ _, None)
    [x05; x00; x00; x00] ["s"%byte] (λ _, None) (λ _, None) st
  = (st, SendThrows BadRconPasswordException).
Proof.
  intros st.
  apply (sendCmd_on_open_connection (λ s : list byte, s) [] ["p"%byte]
           ["s"%byte] (inl 8%nat) (λ _, None) (λ _, None) (λ _, None)
           [x05; x00; x00; x00] 7 0 st eq_refl eq_refl).
  reflexivity.
Defined.

(** ** A command from the call to the answer *)

(** X14: the whole way of one command on a new connection object, when the
    dial and the three writes succeed and the id drawn is not -1:
    [sendCmd] dials, registers the request and returns the caller's promise
    without waiting for the authentication; when the server's answer then
    arrives in one chunk (the authentication reply with id 0, the fragments
    of the response, none of them the marker, and the marker), the
    authentication promise is fulfilled, the caller's promise is fulfilled
    with the text of the fragments concatenated in order, and the map is
    empty again. *)
Theorem sendCmd_answered {JsString : Type}
    (TextEncoder_encode : JsString → list byte)
    (TextDecoder_decode : list byte → JsString) (empty_string : JsString)
    (password cmd : JsString) (c : nat) (id : list byte) (idNumber : Z)
    (writeAuth write1 write2 : list byte → option JsError)
    (authPayload stale : list byte) (payloads : list (list byte)) :
  length id = 4%nat →
  DataView.getInt32 id 0 = Some idNumber →
  idNumber ≠ -1 →
  (∀ b, writeAuth b = None) → (∀ b, write1 b = None) →
  (∀ b, write2 b = None) →
  Z.of_nat (length authPayload) + 10 < 2 ^ 31 →
  Forall (λ p, p ≠ FrameBuffer ∧ Z.of_nat (length p) + 10 < 2 ^ 31)
         payloads →
  let answer :=
    concat (map frame_of_packet
      (mkPacket 0 PacketType.RESPONSE_AUTH authPayload
       :: map (mkPacket idNumber PacketType.RESPONSE_VALUE) payloads
       ++ [mkPacket idNumber PacketType.RESPONSE_VALUE FrameBuffer])) in
  sendCmd TextEncoder_encode empty_string password (inl c) writeAuth id cmd
    write1 write2 Rcon_new
  = (mkRcon (Some 0%nat) (Some c) None (<[idNumber := mkRequest [] 0]> ∅)
            [Pending] [Pending], Sent 0)
  ∧ readChunk TextDecoder_decode
      (Uint8Array.mk (answer ++ stale) 0 (length answer))
      (mkRcon (Some 0%nat) (Some c) None (<[idNumber := mkRequest [] 0]> ∅)
              [Pending] [Pending])
    = (mkRcon (Some 0%nat) (Some c) None ∅ [Fulfilled ()]
              [Fulfilled (TextDecoder_decode (concat payloads))], None).
Proof.
  intros Hid Hnum Hne Hwa Hw1 Hw2 Hauth Hps answer.
  pose proof (getInt32_is_int32 _ _ _ Hnum) as Hrange.
  split.
  - unfold sendCmd, connect. cbn [conn Rcon_new].
    rewrite (sendData_ok TextEncoder_encode) by done.
    unfold send. rewrite (send_register_eq id idNumber _ Hnum).
    cbn [mbind option_bind].
    rewrite !(sendData_ok TextEncoder_encode) by done. reflexivity.
  - subst answer. rewrite readChunk_frames_view; [|  |reflexivity].
    + rewrite dispatchAll_cons. f_equal.
      change (dispatch TextDecoder_decode _ _ _ _)
        with (mkRcon (Some 0%nat) (Some c) None
                (<[idNumber := mkRequest [] 0]> ∅)
                [Fulfilled ()] ([Pending] : list (Promise JsString))).
      rewrite (dispatchAll_fragments_marker TextDecoder_decode payloads
                 idNumber (mkRequest [] 0)); try done.
      * cbn. rewrite delete_insert_eq, delete_empty. reflexivity.
      * apply lookup_insert_eq.
      * eapply Forall_impl; [exact Hps|]. by intros p [? _].
    + apply Forall_cons_2.
      { unfold wf_packet, is_int32, PacketType.RESPONSE_AUTH.
        cbn [pid ptype ppayload]. lia. }
      apply Forall_app_2.
      * apply Forall_fmap. eapply Forall_impl; [exact Hps|].
        intros p [_ Hp]. unfold wf_packet, is_int32 in *.
        unfold PacketType.RESPONSE_VALUE. cbn [pid ptype ppayload compose].
        lia.
      * apply Forall_cons_2; [|apply Forall_nil_2].
        unfold wf_packet, is_int32 in *.
        unfold PacketType.RESPONSE_VALUE, FrameBuffer.
        cbn [pid ptype ppayload length]. lia.
Qed.

Lemma sendCmd_answered_witness :
  let answer :=
    concat (map frame_of_packet
      (mkPacket 0 PacketType.RESPONSE_AUTH []
       :: map (mkPacket 5 PacketType.RESPONSE_VALUE) [["a"%byte]; ["b"%byte]]
       ++ [mkPacket 5 PacketType.RESPONSE_VALUE FrameBuffer])) in
  sendCmd (λ s : list byte, s) [] ["p"%byte] (inl 7%nat) (λ _, None)
    [x05; x00; x00; x00] ["s"%byte] (λ _, None) (λ _, None) Rcon_new
  = (mkRcon (Some 0%nat) (Some 7%nat) None (<[5 := mkRequest [] 0]> ∅)
            [Pending] [Pending], Sent 0)
  ∧ readChunk (λ s : list byte, s)
      (Uint8Array.mk (answer ++ [xff]) 0 (length answer))
      (mkRcon (Some 0%nat) (Some 7%nat) None (<[5 := mkRequest [] 0]> ∅)
              [Pending] [Pending])
    = (mkRcon (Some 0%nat) (Some 7%nat) None ∅ [Fulfilled ()]
              [Fulfilled (concat [["a"%byte]; ["b"%byte]])], None).
Proof.
  apply (sendCmd_answered (λ s : list byte, s) (λ s : list byte, s) []
           ["p"%byte] ["s"%byte] 7 [x05; x00; x00; x00] 5
           (λ _, None) (λ _, None) (λ _, None) [] [xff]
           [["a"%byte]; ["b"%byte]]).
  - reflexivity.
  - reflexivity.
  - lia.
  - reflexivity.
  - reflexivity.
  - reflexivity.
  - simpl. lia.
  - repeat (apply Forall_cons_2; [split; [discriminate|simpl; lia]|]).
    apply Forall_nil_2.
Defined.

(** X15: when the dial succeeds and the write of the AUTH packet fails,
    [sendCmd] throws (the exception, or [BadIpException] for a reset or
    refused connection) and registers nothing, but the transport stays set
    and its authentication promise pending: every later [sendCmd] neither
    dials nor writes and waits for that promise. *)
Theorem sendCmd_after_failed_auth_write {JsString : Type}
    (TextEncoder_encode : JsString → list byte) (empty_string : JsString)
    (password cmd : JsString) (c : nat) (e : JsError)
    (writeAuth write1 write2 : list byte → option JsError) (id : list byte)
    (st : @Rcon JsString) :
  conn st = None → (∀ b, writeAuth b = Some e) →
  sendCmd TextEncoder_encode empty_string password (inl c) writeAuth id cmd
    write1 write2 st
  = (mkRcon (Some (length (authPromises st))) (Some c) (outstandingData st)
       (requests st) (authPromises st ++ [Pending]) (cmdPromises st),
     SendThrows (connect_catch e))
  ∧ ∀ password' cmd' dial' writeAuth' write1' write2' id',
      sendCmd TextEncoder_encode empty_string password' dial' writeAuth' id'
        cmd' write1' write2'
        (mkRcon (Some (length (authPromises st))) (Some c)
           (outstandingData st) (requests st) (authPromises st ++ [Pending])
           (cmdPromises st))
      = (mkRcon (Some (length (authPromises st))) (Some c)
           (outstandingData st) (requests st) (authPromises st ++ [Pending])
           (cmdPromises st),
         SendWaits (length (authPromises st))).
Proof.
  intros Hc Hw. split.
  - unfold sendCmd, connect. rewrite Hc.
    rewrite (sendData_fails TextEncoder_encode _ _ _ _ e c) by done.
    destruct st; simpl in *; subst. reflexivity.
  - intros. unfold sendCmd, connect.
    cbn [conn authed authPromises].
    rewrite lookup_app_r, Nat.sub_diag by done. reflexivity.
Qed.

Lemma sendCmd_after_failed_auth_write_witness :
  sendCmd (λ s : list byte, s) [] ["p"%byte] (inl 7%nat)
    (λ _, Some (TransportError "BrokenPipe"))
    [x05; x00; x00; x00] ["s"%byte] (λ _, None) (λ _, None) Rcon_new
  = (mkRcon (Some 0%nat) (Some 7%nat) None ∅ [Pending] [],
     SendThrows (TransportError "BrokenPipe")).
Proof.
  apply (sendCmd_after_failed_auth_write (λ s : list byte, s) [] ["p"%byte]
           ["s"%byte] 7 (TransportError "BrokenPipe")
           (λ _, Some (TransportError "BrokenPipe")) (λ _, None) (λ _, None)
           [x05; x00; x00; x00] Rcon_new).
  - reflexivity.
  - reflexivity.
Defined.

(** ** Two requests under one id *)

(** X16: when [send] draws an id that is already in the map, the new
    request takes the place of the old one and the old caller's promise is
    left without an entry: whatever bytes are read afterwards, and also at
    [disconnect] and at the teardown of the read loop, that promise is never
    settled. *)
Theorem colliding_id_orphans_the_older_request {JsString : Type}
    (TextDecoder_decode : list byte → JsString)
    (id : list byte) (idNumber : Z) (old : Request) (st : @Rcon JsString) :
  DataView.getInt32 id 0 = Some idNumber →
  requests st !! idNumber = Some old →
  (promise old < length (cmdPromises st))%nat →
  (∀ id' r, requests st !! id' = Some r → promise r = promise old →
     id' = idNumber) →
  ∃ sendPromise st1,
    send_register id st = Some (sendPromise, idNumber, st1)
    ∧ requests st1 !! idNumber = Some (mkRequest [] sendPromise)
    ∧ sendPromise ≠ promise old
    ∧ (∀ chunks,
         cmdPromises (feed TextDecoder_decode chunks st1).1 !! promise old
         = cmdPromises st !! promise old)
    ∧ cmdPromises (disconnect st1) !! promise old
      = cmdPromises st !! promise old
    ∧ (∀ chunks,
         cmdPromises (read TextDecoder_decode chunks st1).1 !! promise old
         = cmdPromises st !! promise old).
Proof.
  intros Hnum Hold Hlt Huniq.
  rewrite (send_register_eq id idNumber st Hnum).
  eexists _, _. split; [reflexivity|].
  set (st1 := mkRcon _ _ _ _ _ _).
  assert (Hnone : ∀ id' r, requests st1 !! id' = Some r →
                    promise r ≠ promise old).
  { intros id' r Hr. subst st1. cbn [requests] in Hr.
    destruct (decide (idNumber = id')) as [<-|Hne].
    - rewrite lookup_insert_eq in Hr. injection Hr as <-. simpl. lia.
    - rewrite lookup_insert_ne in Hr by done. intros Heq.
      apply Hne. symmetry. by apply (Huniq id' r). }
  assert (Hst1 : cmdPromises st1 !! promise old = cmdPromises st !! promise old).
  { subst st1. cbn [cmdPromises]. by rewrite lookup_app_l. }
  assert (Hfeed : ∀ chunks,
            cmdPromises (feed TextDecoder_decode chunks st1).1 !! promise old
            = cmdPromises st !! promise old).
  { intros chunks. rewrite <- Hst1.
    by apply (reads_unreferenced _ _
                (feed_reads_to TextDecoder_decode chunks st1)). }
  split; [apply lookup_insert_eq|]. split; [lia|]. split; [exact Hfeed|].
  split.
  - rewrite <- Hst1. unfold disconnect. cbn [cmdPromises set_requests].
    by rewrite (reject_all_other _ (set_authed None (set_conn None st1))).
  - intros chunks.
    pose proof (feed_reads_to TextDecoder_decode chunks st1) as Hrel.
    assert (Hnone' : ∀ id' r,
              requests (feed TextDecoder_decode chunks st1).1 !! id' = Some r →
              promise r ≠ promise old).
    { intros id' r Hr.
      destruct (reads_requests _ _ Hrel id' r Hr) as (r0 & Hr0 & Hp & _).
      rewrite Hp. by apply (Hnone id' r0). }
    assert (Hfin : ∀ (c : option nat) (s : @Rcon JsString),
              (∀ id' r, requests s !! id' = Some r → promise r ≠ promise old) →
              cmdPromises (read_finally c s) !! promise old
              = cmdPromises s !! promise old).
    { intros c0 s Hs. unfold read_finally. case_decide; [|done].
      cbn [cmdPromises set_requests]. rewrite reject_all_other.
      - unfold authed_reject. simpl. by destruct (authed s).
      - intros id' r Hr. apply (Hs id' r).
        revert Hr. unfold authed_reject. simpl. by destruct (authed s). }
    pose proof (Hfeed chunks) as Hf1. unfold read.
    destruct (conn st1) as [c0|].
    + destruct (feed TextDecoder_decode chunks st1) as [sf err].
      cbn [fst] in *. by rewrite Hfin.
    + cbn [fst]. by rewrite Hfin.
Qed.

Lemma colliding_id_orphans_the_older_request_witness :
  let st : @Rcon (list byte) :=
    mkRcon (Some 0%nat) (Some 7%nat) None (<[5 := mkRequest ["a"%byte] 0]> ∅)
           [Fulfilled ()] [Pending] in
  ∃ sendPromise st1,
    send_register [x05; x00; x00; x00] st = Some (sendPromise, 5, st1)
    ∧ requests st1 !! 5 = Some (mkRequest [] sendPromise)
    ∧ sendPromise ≠ 0%nat
    ∧ (∀ chunks,
         cmdPromises (feed (λ s : list byte, s) chunks st1).1 !! 0%nat
         = cmdPromises st !! 0%nat)
    ∧ cmdPromises (disconnect st1) !! 0%nat = cmdPromises st !! 0%nat
    ∧ (∀ chunks,
         cmdPromises (read (λ s : list byte, s) chunks st1).1 !! 0%nat
         = cmdPromises st !! 0%nat).
Proof.
  intros st.
  apply (colliding_id_orphans_the_older_request (λ s : list byte, s)
           [x05; x00; x00; x00] 5 (mkRequest ["a"%byte] 0) st).
  - reflexivity.
  - reflexivity.
  - simpl. lia.
  - intros id' r Hr _. cbn [requests st] in Hr.
    destruct (decide (id' = 5)) as [->|Hne]; [done|].
    rewrite lookup_insert_ne in Hr by done. by rewrite lookup_empty in Hr.
Defined.

(** ** Every request has a promise of its own *)

Section OwnPromises.
Context {JsString : Type}.
Variable TextEncoder_encode : JsString → list byte.
Variable TextDecoder_decode : list byte → JsString.

Lemma own_promises_empty (st : @Rcon JsString) :
  requests st = ∅ → own_promises st.
Proof.
  intros Hr. split; intros *; rewrite Hr, lookup_empty; done.
Qed.

Lemma own_promises_same_requests (st st' : @Rcon JsString) :
  requests st' = requests st →
  length (cmdPromises st') = length (cmdPromises st) →
  own_promises st → own_promises st'.
Proof.
  intros Hr Hl [Hv Hi]. split; intros *; rewrite Hr, ?Hl; eauto.
Qed.

Lemma connect_requests (password : JsString) (dial : nat + JsError)
    (write : list byte → option JsError) (st : @Rcon JsString) :
  requests (connect TextEncoder_encode password dial write st).1 = requests st
  ∧ cmdPromises (connect TextEncoder_encode password dial write st).1
    = cmdPromises st.
Proof. unfold connect. repeat case_match; done. Qed.

Lemma own_promises_reads_to (st st' : @Rcon JsString) :
  reads_to st st' → own_promises st → own_promises st'.
Proof.
  intros [_ _ Hk _ Hcp _] [Hv Hi]. apply Forall2_length in Hcp. split.
  - intros id r Hr. destruct (Hk id r Hr) as (r0 & Hr0 & Hp & _).
    rewrite <- Hcp, Hp. eauto.
  - intros id1 id2 r1 r2 H1 H2 Heq.
    destruct (Hk id1 r1 H1) as (q1 & Hq1 & Hp1 & _).
    destruct (Hk id2 r2 H2) as (q2 & Hq2 & Hp2 & _).
    apply (Hi id1 id2 q1 q2); congruence.
Qed.

(** In every state a connection object can be in, each request has a
    promise of the store and no two requests share one. *)
Lemma reachable_own_promises (st : @Rcon JsString) :
  reachable TextEncoder_encode TextDecoder_decode st → own_promises st.
Proof.
  induction 1 as [|password dial write st _ IH|id h idNumber st st' _ IH Hreg
                  |idNumber e st _ IH|data st _ IH|c st _ IH|st _ IH].
  - by apply own_promises_empty.
  - destruct (connect_requests password dial write st) as [Hr Hc].
    apply (own_promises_same_requests st); [done|by rewrite Hc|done].
  - unfold send_register in Hreg.
    destruct (DataView.getInt32 id 0) as [n|]; [|discriminate].
    injection Hreg as <- <- <-. destruct IH as [Hv Hi]. split.
    + intros id' r Hr. cbn [requests cmdPromises set_requests set_cmdPromises]
        in *. rewrite length_app. simpl.
      destruct (decide (n = id')) as [<-|Hne].
      * rewrite lookup_insert_eq in Hr. injection Hr as <-. simpl. lia.
      * rewrite lookup_insert_ne in Hr by done.
        pose proof (Hv id' r Hr). lia.
    + intros id1 id2 r1 r2 H1 H2 Heq.
      cbn [requests cmdPromises set_requests set_cmdPromises] in *.
      destruct (decide (n = id1)) as [<-|Hne1];
        destruct (decide (n = id2)) as [<-|Hne2]; [done| | |].
      * rewrite lookup_insert_eq in H1. rewrite lookup_insert_ne in H2 by done.
        injection H1 as <-. pose proof (Hv id2 r2 H2). simpl in Heq. lia.
      * rewrite lookup_insert_eq in H2. rewrite lookup_insert_ne in H1 by done.
        injection H2 as <-. pose proof (Hv id1 r1 H1). simpl in Heq. lia.
      * rewrite lookup_insert_ne in H1, H2 by done. eauto.
  - apply (own_promises_same_requests st); [| |done];
      rewrite send_catch_eq; [done|].
    cbn [cmdPromises]. destruct (requests st !! idNumber); [|done].
    apply length_alter.
  - eapply own_promises_reads_to; [|exact IH].
    apply readChunk_reads_to.
  - unfold read_finally. case_decide; [|done]. by apply own_promises_empty.
  - by apply own_promises_empty.
Qed.
End OwnPromises.

(** X17: in every state a connection object can reach, a packet never
    touches a request registered under another id: that request stays in
    the map as it is, and its caller's promise is not settled, whatever the
    packet carries. *)
Theorem dispatch_leaves_other_requests {JsString : Type}
    (TextEncoder_encode : JsString → list byte)
    (TextDecoder_decode : list byte → JsString)
    (st : @Rcon JsString) (id id' type : Z) (payload : list byte)
    (r' : Request) :
  reachable TextEncoder_encode TextDecoder_decode st →
  requests st !! id' = Some r' →
  id ≠ id' →
  requests (dispatch TextDecoder_decode id type payload st) !! id' = Some r'
  ∧ cmdPromises (dispatch TextDecoder_decode id type payload st) !! promise r'
    = cmdPromises st !! promise r'.
Proof.
  intros Hreach Hr' Hne.
  destruct (reachable_own_promises _ _ _ Hreach) as [_ Hinj].
  unfold dispatch.
  destruct (negb (id =? -1));
    [|unfold authed_reject; by destruct (authed st)].
  destruct ((type =? PacketType.RESPONSE_AUTH) && (id =? 0));
    [unfold authed_resolve; by destruct (authed st)|].
  destruct (type =? PacketType.RESPONSE_VALUE); [|done].
  destruct (requests st !! id) as [request|] eqn:Hreq; [|done].
  destruct (Uint8Array.equals FrameBuffer payload); simpl.
  - rewrite lookup_delete_ne by done. split; [done|].
    apply list_lookup_alter_ne. intros Heq.
    apply Hne. by apply (Hinj id id' request r').
  - by rewrite lookup_insert_ne.
Qed.

Lemma dispatch_leaves_other_requests_witness :
  let st : @Rcon (list byte) :=
    mkRcon None None None
      (<[6 := mkRequest [] 1]> (<[5 := mkRequest [] 0]> ∅)) []
      [Pending; Pending] in
  requests (dispatch (λ s : list byte, s) 5 0 FrameBuffer st) !! 6
  = Some (mkRequest [] 1)
  ∧ cmdPromises (dispatch (λ s : list byte, s) 5 0 FrameBuffer st) !! 1%nat
    = cmdPromises st !! 1%nat.
Proof.
  intros st.
  apply (dispatch_leaves_other_requests (λ s : list byte, s)
           (λ s : list byte, s) st 5 6 0 FrameBuffer (mkRequest [] 1)).
  - apply (reach_send_register _ _ [x06; x00; x00; x00] 1 6
             (mkRcon None None None (<[5 := mkRequest [] 0]> ∅) [] [Pending]));
      [|reflexivity].
    apply (reach_send_register _ _ [x05; x00; x00; x00] 0 5 Rcon_new);
      [|reflexivity].
    apply reach_new.
  - reflexivity.
  - lia.
Defined.

(** ** The carry-over buffer across connections *)

Lemma connect_outstandingData {JsString : Type}
    (TextEncoder_encode : JsString → list byte) (password : JsString)
    (dial : nat + JsError) (write : list byte → option JsError)
    (st : @Rcon JsString) :
  outstandingData (connect TextEncoder_encode password dial write st).1
  = outstandingData st.
Proof. unfold connect. repeat case_match; done. Qed.

Lemma read_finally_outstandingData {JsString : Type} (c : option nat)
    (st : @Rcon JsString) :
  outstandingData (read_finally c st) = outstandingData st.
Proof.
  unfold read_finally. case_decide; [|done]. cbn [outstandingData set_requests].
  destruct (reject_all_fields RconConnectionClosedException
              (set_authed None
                 (authed_reject RconConnectionClosedException
                    (set_conn None st)))) as (_ & _ & -> & _).
  unfold authed_reject. simpl. by destruct (authed st).
Qed.

(** X18: neither [disconnect] nor the teardown of the read loop nor
    [connect] clears the carry-over buffer.  Bytes kept from the old
    transport are therefore put in front of the first chunk read on the next
    one: that chunk is read exactly as the old bytes followed by it would be
    on a connection that carries nothing over. *)
Theorem carry_over_survives_reconnect {JsString : Type}
    (TextEncoder_encode : JsString → list byte)
    (TextDecoder_decode : list byte → JsString)
    (password : JsString) (dial : nat + JsError)
    (write : list byte → option JsError) (c : option nat)
    (od : list byte) (data : Uint8Array.t) (st : @Rcon JsString) :
  outstandingData st = Some od →
  ∀ down, down = disconnect st ∨ down = read_finally c st →
    outstandingData (connect TextEncoder_encode password dial write down).1
    = Some od
    ∧ readChunk TextDecoder_decode data
        (connect TextEncoder_encode password dial write down).1
      = readChunk TextDecoder_decode
          (Uint8Array.of_list (od ++ Uint8Array.contents data))
          (set_outstandingData None
             (connect TextEncoder_encode password dial write down).1).
Proof.
  intros Hod down Hdown.
  assert (Hd : outstandingData down = Some od).
  { destruct Hdown as [->| ->].
    - by rewrite disconnect_outstandingData.
    - by rewrite read_finally_outstandingData. }
  pose proof (connect_outstandingData TextEncoder_encode password dial write
                down) as Hc.
  rewrite Hd in Hc. split; [exact Hc|].
  unfold readChunk, takeOutstanding. rewrite Hc.
  cbn [outstandingData set_outstandingData]. reflexivity.
Qed.

Lemma carry_over_survives_reconnect_witness :
  let st : @Rcon (list byte) :=
    mkRcon (Some 0%nat) (Some 7%nat) (Some [x0e; x00]) ∅ [Pending] [] in
  let st' := (connect (λ s : list byte, s) ["p"%byte] (inl 8%nat)
                (λ _, None) (disconnect st)).1 in
  outstandingData st' = Some [x0e; x00]
  ∧ readChunk (λ s : list byte, s) (Uint8Array.of_list [x00; x00]) st'
    = readChunk (λ s : list byte, s)
        (Uint8Array.of_list
           ([x0e; x00] ++ Uint8Array.contents (Uint8Array.of_list [x00; x00])))
        (set_outstandingData None st').
Proof.
  intros st st'.
  apply (carry_over_survives_reconnect (λ s : list byte, s)
           (λ s : list byte, s) ["p"%byte] (inl 8%nat) (λ _, None) None
           [x0e; x00] (Uint8Array.of_list [x00; x00]) st eq_refl
           (disconnect st)).
  by left.
Defined.

(** ** The authentication reply *)

Lemma dispatchAll_reads_to {JsString : Type}
    (TextDecoder_decode : list byte → JsString) (packets : list Packet) :
  ∀ st : @Rcon JsString,
  reads_to st (dispatchAll TextDecoder_decode packets st).
Proof.
  induction packets as [|p ps IH]; intros st; [apply reads_to_refl|].
  rewrite dispatchAll_cons.
  eapply reads_to_trans; [apply dispatch_reads_to|apply IH].
Qed.

(** X19: a packet with id 0 and type RESPONSE_AUTH fulfils a pending
    authentication promise and touches nothing else, also when a request is
    registered under id 0; and no packet routed afterwards, one with id -1
    included, takes the success back. *)
Theorem auth_reply_fulfils_for_good {JsString : Type}
    (TextDecoder_decode : list byte → JsString)
    (payload : list byte) (a : nat) (packets : list Packet)
    (st : @Rcon JsString) :
  authed st = Some a →
  authPromises st !! a = Some Pending →
  dispatch TextDecoder_decode 0 PacketType.RESPONSE_AUTH payload st
  = mkRcon (authed st) (conn st) (outstandingData st) (requests st)
      (<[a := Fulfilled ()]> (authPromises st)) (cmdPromises st)
  ∧ authPromises
      (dispatchAll TextDecoder_decode
         (mkPacket 0 PacketType.RESPONSE_AUTH payload :: packets) st) !! a
    = Some (Fulfilled ()).
Proof.
  intros Ha Hp.
  assert (E : dispatch TextDecoder_decode 0 PacketType.RESPONSE_AUTH payload st
              = mkRcon (authed st) (conn st) (outstandingData st) (requests st)
                  (<[a := Fulfilled ()]> (authPromises st)) (cmdPromises st)).
  { change (dispatch TextDecoder_decode 0 PacketType.RESPONSE_AUTH payload st)
      with (authed_resolve st).
    unfold authed_resolve, set_authPromises. rewrite Ha. f_equal.
    apply list_eq. intros i. destruct (decide (i = a)) as [->|Hne].
    - rewrite list_lookup_alter_eq, Hp.
      rewrite list_lookup_insert_eq; [done|]. by eapply lookup_lt_Some.
    - by rewrite list_lookup_alter_ne, list_lookup_insert_ne. }
  split; [exact E|].
  rewrite dispatchAll_cons. cbn [pid ptype ppayload]. rewrite E.
  set (st1 := mkRcon _ _ _ _ _ _).
  destruct (dispatchAll_reads_to TextDecoder_decode packets st1)
    as [_ _ _ Hap _ _].
  assert (H1 : authPromises st1 !! a = Some (Fulfilled ())).
  { subst st1. cbn [authPromises].
    apply list_lookup_insert_eq. by eapply lookup_lt_Some. }
  destruct (Forall2_lookup_l _ _ _ _ _ Hap H1) as (p' & Hp' & [Hq|Hq]);
    subst; done.
Qed.

Lemma auth_reply_fulfils_for_good_witness :
  let st : @Rcon (list byte) :=
    mkRcon (Some 0%nat) (Some 7%nat) None (<[0 := mkRequest [] 0]> ∅)
           [Pending] [Pending] in
  dispatch (λ s : list byte, s) 0 PacketType.RESPONSE_AUTH [] st
  = mkRcon (Some 0%nat) (Some 7%nat) None (<[0 := mkRequest [] 0]> ∅)
      (<[0%nat := Fulfilled ()]> [Pending]) [Pending]
  ∧ authPromises
      (dispatchAll (λ s : list byte, s)
         (mkPacket 0 PacketType.RESPONSE_AUTH []
          :: [mkPacket (-1) PacketType.RESPONSE_AUTH []]) st) !! 0%nat
    = Some (Fulfilled ()).
Proof.
  intros st.
  apply (auth_reply_fulfils_for_good (λ s : list byte, s) [] 0
           [mkPacket (-1) PacketType.RESPONSE_AUTH []] st).
  - reflexivity.
  - reflexivity.
Defined.

(** ** The HTTP endpoint *)

(** X20: for a request whose method is not OPTIONS and that does not pass
    validation, whatever [validateRequest] reports (any message and status)
    or throws, [home] answers with the one object "Body must be present"
    with status code 400 in it, built without status and without the CORS
    headers, and the command is not run. *)
Theorem home_validation_failure {JsString : Type}
    (toUpperCase : string → string) (method : string)
    (v : @Validated JsString)
    (run : JsString → Z → JsString → JsString → Promise JsString) :
  toUpperCase method ≠ "OPTIONS" →
  (∀ body, v ≠ Checked None body) →
  home toUpperCase method v run
  = Some (json (Failure 400 "Body must be present" "Bad Request")
               (mkInit None None)).
Proof.
  intros Hm Hv. unfold home.
  destruct (String.eqb_spec (toUpperCase method) "OPTIONS") as [?|_]; [done|].
  destruct v as [[[msg st]|] body|e]; try reflexivity.
  by destruct (Hv body).
Qed.

Lemma home_validation_failure_witness :
  home (λ s, s) "POST"
    (Checked (Some ("command is required", 422))
             (mkDto ["h"%byte] None ["p"%byte] ([] : list byte)))
    (λ _ _ _ _, Fulfilled ["x"%byte])
  = Some (json (Failure 400 "Body must be present" "Bad Request")
               (mkInit None None)).
Proof.
  apply (home_validation_failure (λ s, s) "POST").
  - discriminate.
  - discriminate.
Defined.

(** What [home] answers to a valid request that is not a preflight. *)
Lemma home_valid_request {JsString : Type}
    (toUpperCase : string → string) (method : string)
    (body : @RconRequestDto JsString)
    (run : JsString → Z → JsString → JsString → Promise JsString) :
  toUpperCase method ≠ "OPTIONS" →
  home toUpperCase method (Checked None body) run
  = match run (ip body) (default 27015 (port body)) (password body)
              (command body) with
    | Pending => None
    | Fulfilled response =>
      Some (json (CommandResult 200 response) (mkInit None (Some getHeaders)))
    | Rejected err =>
      Some (json
              (if decide (err = BadIpException ∨ err = BadRconPasswordException
                          ∨ err = RconConnectionClosedException)
               then Failure 400 (message err) "Bad Request"
               else Failure 500 "Unexpected error occured"
                            "Internal Server Error")
              (mkInit None (Some getHeaders)))
    end.
Proof.
  intros Hm. unfold home.
  destruct (String.eqb_spec (toUpperCase method) "OPTIONS") as [?|_]; [done|].
  cbn [validateBody].
  destruct (run _ _ _ _) as [|response|err]; try reflexivity.
  destruct err; (rewrite decide_True by tauto; reflexivity)
                || (rewrite decide_False; [reflexivity|];
                    intros [?|[?|?]]; discriminate).
Qed.


(** X22: a valid request for a host that refuses or resets the connection
    is answered by [home], through [sendCmd] and [connect] on a new
    connection object, with status code 400 and the message "Failed to
    resolve IP", with the CORS headers; any other failure of the dial is
    answered with status code 500. *)
Theorem home_unreachable_host {JsString : Type}
    (TextEncoder_encode : JsString → list byte) (empty_string : JsString)
    (toUpperCase : string → string) (method : string)
    (body : @RconRequestDto JsString) (name : string)
    (writeAuth write1 write2 : list byte → option JsError) (id : list byte) :
  toUpperCase method ≠ "OPTIONS" →
  home toUpperCase method (Checked None body)
    (λ _ _ password command,
       awaited (sendCmd TextEncoder_encode empty_string password
                  (inr (TransportError name)) writeAuth id command
                  write1 write2 Rcon_new))
  = Some (json
            (if decide (name = "ConnectionRefused" ∨ name = "ConnectionReset")
             then Failure 400 "Failed to resolve IP" "Bad Request"
             else Failure 500 "Unexpected error occured"
                          "Internal Server Error")
            (mkInit None (Some getHeaders))).
Proof.
  intros Hm. rewrite home_valid_request by done.
  unfold awaited, sendCmd, connect. cbn [conn Rcon_new fst snd].
  unfold connect_catch.
  destruct (String.eqb_spec name "ConnectionRefused") as [->|H1].
  { cbn [orb]. rewrite !decide_True by tauto. reflexivity. }
  destruct (String.eqb_spec name "ConnectionReset") as [->|H2].
  { cbn [orb]. rewrite !decide_True by tauto. reflexivity. }
  cbn [orb]. rewrite !decide_False; [reflexivity| |].
  - intros [?|?]; done.
  - intros [?|[?|?]]; discriminate.
Qed.

Lemma home_unreachable_host_witness :
  home (λ s, s) "POST"
    (Checked None (mkDto ["h"%byte] None ["p"%byte] ["s"%byte]))
    (λ _ _ password command,
       awaited (sendCmd (λ s : list byte, s) [] password
                  (inr (TransportError "ConnectionRefused")) (λ _, None)
                  [x05; x00; x00; x00] command (λ _, None) (λ _, None)
                  Rcon_new))
  = Some (json
            (if decide ("ConnectionRefused" = "ConnectionRefused"
                        ∨ "ConnectionRefused" = "ConnectionReset")
             then Failure 400 "Failed to resolve IP" "Bad Request"
             else Failure 500 "Unexpected error occured"
                          "Internal Server Error")
            (mkInit None (Some getHeaders))).
Proof.
  apply (home_unreachable_host (λ s : list byte, s) [] (λ s, s) "POST"
           (mkDto ["h"%byte] None ["p"%byte] ["s"%byte]) "ConnectionRefused").
  discriminate.
Defined.

(** ** One command on a new connection *)

Section SingleCommand.
Context {JsString : Type}.
Variable TextDecoder_decode : list byte → JsString.
Variable idNumber : Z.

Lemma dispatch_waiting_or_fulfilled (id type : Z) (payload : list byte)
    (s : @Rcon JsString) :
  waiting_or_fulfilled idNumber s →
  waiting_or_fulfilled idNumber (dispatch TextDecoder_decode id type payload s).
Proof.
  intros [(r & Hr & Hp & Hpend)|[v Hv]].
  - unfold dispatch.
    destruct (negb (id =? -1));
      [|left; exists r; unfold authed_reject; by destruct (authed s)].
    destruct ((type =? PacketType.RESPONSE_AUTH) && (id =? 0));
      [left; exists r; unfold authed_resolve; by destruct (authed s)|].
    destruct (type =? PacketType.RESPONSE_VALUE); [|left; by exists r].
    destruct (requests s !! id) as [request|] eqn:Hreq; [|left; by exists r].
    destruct (Uint8Array.equals FrameBuffer payload).
    + destruct (decide (promise request = 0%nat)) as [H0|H0].
      * right. exists (TextDecoder_decode (data request)). simpl.
        by rewrite H0, list_lookup_alter_eq, Hpend.
      * left. exists r. simpl. rewrite list_lookup_alter_ne by done.
        split; [|done]. apply lookup_delete_Some. split; [|done].
        intros <-. congruence.
    + left. simpl. destruct (decide (id = idNumber)) as [->|Hne].
      * exists (mkRequest (data request ++ payload) (promise request)).
        rewrite lookup_insert_eq. split; [done|]. split; [|done].
        simpl. congruence.
      * exists r. by rewrite lookup_insert_ne.
  - right. exists v.
    destruct (dispatch_reads_to TextDecoder_decode id type payload s)
      as [_ _ _ _ Hcp _].
    destruct (Forall2_lookup_l _ _ _ _ _ Hcp Hv) as (p' & Hp' & [Hq|[Hq _]]);
      subst; done.
Qed.

Lemma feed_waiting_or_fulfilled (chunks : list Uint8Array.t) :
  ∀ s : @Rcon JsString,
  waiting_or_fulfilled idNumber s →
  waiting_or_fulfilled idNumber (feed TextDecoder_decode chunks s).1.
Proof.
  induction chunks as [|chunk rest IH]; intros s Hs; [done|].
  cbn [feed].
  assert (Hchunk : waiting_or_fulfilled idNumber
                     (readChunk TextDecoder_decode chunk s).1).
  { unfold readChunk.
    assert (H1 : waiting_or_fulfilled idNumber (takeOutstanding chunk s).2).
    { unfold takeOutstanding. by destruct (outstandingData s). }
    destruct (takeOutstanding chunk s) as [d s1]. cbn [snd] in H1.
    pose proof (readLoop_preserves
                  (λ a b, waiting_or_fulfilled idNumber a
                           → waiting_or_fulfilled idNumber b)
                  (dispatch TextDecoder_decode)
                  (λ _ H, H) (λ _ _ _ H12 H23 H, H23 (H12 H))
                  dispatch_waiting_or_fulfilled
                  (Datatypes.S (Uint8Array.length d)) d s1 H1) as H2.
    destruct (readLoop _ _ d s1) as [s2 e]. cbn [fst] in H2.
    by destruct e. }
  destruct (readChunk TextDecoder_decode chunk s) as [s' [e|]];
    cbn [fst] in *; [done|]. by apply IH.
Qed.

Lemma read_finally_settled (c : option nat) (s : @Rcon JsString) (h : nat)
    (p : Promise JsString) :
  cmdPromises s !! h = Some p → p ≠ Pending →
  cmdPromises (read_finally c s) !! h = Some p.
Proof.
  intros Hp Hne. unfold read_finally. case_decide; [|done].
  cbn [cmdPromises set_requests]. rewrite reject_all_eq.
  cbn [cmdPromises set_cmdPromises]. rewrite foldr_reject_lookup.
  assert (Hs : cmdPromises
                 (set_authed None
                    (authed_reject RconConnectionClosedException
                       (set_conn None s))) !! h = Some p).
  { unfold authed_reject. simpl. by destruct (authed s). }
  rewrite Hs. case_decide; [|done]. by destruct p.
Qed.
End SingleCommand.

(** X23: the promise that a single [sendCmd] on a new connection object
    hands to its caller, once the command is written, is never rejected
    with [BadRconPasswordException], whatever the server sends, a reply with
    id -1 included: while the read loop runs it is pending or fulfilled, and
    when the read loop has ended it is fulfilled or rejected with
    [RconConnectionClosedException]. *)
Theorem single_command_never_sees_bad_password {JsString : Type}
    (TextEncoder_encode : JsString → list byte)
    (TextDecoder_decode : list byte → JsString) (empty_string : JsString)
    (password cmd : JsString) (c : nat) (id : list byte) (idNumber : Z)
    (writeAuth write1 write2 : list byte → option JsError)
    (chunks : list Uint8Array.t) :
  length id = 4%nat →
  DataView.getInt32 id 0 = Some idNumber →
  (∀ b, writeAuth b = None) → (∀ b, write1 b = None) →
  (∀ b, write2 b = None) →
  ∃ st1,
    sendCmd TextEncoder_encode empty_string password (inl c) writeAuth id cmd
      write1 write2 Rcon_new = (st1, Sent 0)
    ∧ (cmdPromises (feed TextDecoder_decode chunks st1).1 !! 0%nat
       = Some Pending
       ∨ ∃ v, cmdPromises (feed TextDecoder_decode chunks st1).1 !! 0%nat
              = Some (Fulfilled v))
    ∧ ((∃ v, cmdPromises (read TextDecoder_decode chunks st1).1 !! 0%nat
             = Some (Fulfilled v))
       ∨ cmdPromises (read TextDecoder_decode chunks st1).1 !! 0%nat
         = Some (Rejected RconConnectionClosedException)).
Proof.
  intros Hid Hnum Hwa Hw1 Hw2.
  exists (mkRcon (Some 0%nat) (Some c) None (<[idNumber := mkRequest [] 0]> ∅)
                 [Pending] [Pending]).
  split.
  { unfold sendCmd, connect. cbn [conn Rcon_new].
    rewrite (sendData_ok TextEncoder_encode) by done.
    unfold send. rewrite (send_register_eq id idNumber _ Hnum).
    cbn [mbind option_bind].
    rewrite !(sendData_ok TextEncoder_encode) by done. reflexivity. }
  set (st1 := mkRcon _ _ _ _ _ _).
  assert (H1 : waiting_or_fulfilled idNumber st1).
  { left. exists (mkRequest [] 0). split; [apply lookup_insert_eq|done]. }
  pose proof (feed_waiting_or_fulfilled TextDecoder_decode idNumber chunks
                st1 H1) as Hf.
  split.
  { destruct Hf as [(r & _ & _ & Hp)|Hv]; [by left|by right]. }
  unfold read. cbn [conn st1].
  destruct (feed_reads_to TextDecoder_decode chunks st1) as [Hc _ _ _ _ _].
  destruct (feed TextDecoder_decode chunks st1) as [sf err]. cbn [fst] in *.
  destruct Hf as [(r & Hr & Hp & Hpend)|[v Hv]].
  - right.
    destruct (read_finally_rejects (Some c) sf Hc) as (_ & _ & _ & _ & Hrej).
    specialize (Hrej idNumber r Hr). rewrite Hp, Hpend in Hrej. exact Hrej.
  - left. exists v. by apply read_finally_settled.
Qed.

Lemma single_command_never_sees_bad_password_witness :
  ∃ st1,
    sendCmd (λ s : list byte, s) [] ["p"%byte] (inl 7%nat) (λ _, None)
      [x05; x00; x00; x00] ["s"%byte] (λ _, None) (λ _, None) Rcon_new
    = (st1, Sent 0)
    ∧ (cmdPromises
         (feed (λ s : list byte, s)
            [Uint8Array.of_list
               (frame_of_packet (mkPacket (-1) PacketType.RESPONSE_AUTH []))]
            st1).1 !! 0%nat
       = Some Pending
       ∨ ∃ v, cmdPromises
                (feed (λ s : list byte, s)
                   [Uint8Array.of_list
                      (frame_of_packet
                         (mkPacket (-1) PacketType.RESPONSE_AUTH []))]
                   st1).1 !! 0%nat
              = Some (Fulfilled v))
    ∧ ((∃ v, cmdPromises
               (read (λ s : list byte, s)
                  [Uint8Array.of_list
                     (frame_of_packet
                        (mkPacket (-1) PacketType.RESPONSE_AUTH []))]
                  st1).1 !! 0%nat
             = Some (Fulfilled v))
       ∨ cmdPromises
           (read (λ s : list byte, s)
              [Uint8Array.of_list
                 (frame_of_packet (mkPacket (-1) PacketType.RESPONSE_AUTH []))]
              st1).1 !! 0%nat
         = Some (Rejected RconConnectionClosedException)).
Proof.
  apply (single_command_never_sees_bad_password (λ s : list byte, s)
           (λ s : list byte, s) [] ["p"%byte] ["s"%byte] 7
           [x05; x00; x00; x00] 5 (λ _, None) (λ _, None) (λ _, None)).
  - reflexivity.
  - reflexivity.
  - reflexivity.
  - reflexivity.
  - reflexivity.
Defined.

(** ** One command through the endpoint *)

Section EndpointCommand.
Context {JsString : Type}.
Variable TextEncoder_encode : JsString → list byte.
Variable TextDecoder_decode : list byte → JsString.
Variable empty_string : JsString.


End EndpointCommand.



(** ** Fewer than four bytes left *)

Section ShortTail.
Context {S : Type}.
Variable handle : Z → Z → list byte → S → S.

(** Complete frames followed by one to three more bytes, in an array of
    their own: the packets are handled, then the length cannot be read. *)
Lemma readLoop_frames_short_tail (packets : list Packet) (tail : list byte) :
  ∀ (fuel : nat) (s : S),
  Forall wf_packet packets →
  (0 < length tail < 4)%nat →
  (length (concat (map frame_of_packet packets) ++ tail) < fuel)%nat →
  readLoop handle fuel
    (Uint8Array.of_list (concat (map frame_of_packet packets) ++ tail)) s
  = (foldl (λ s p, handle (pid p) (ptype p) (ppayload p) s) s packets,
     Thrown RangeError).
Proof.
  induction packets as [|p ps IH]; intros fuel s Hwf Ht Hfuel.
  - destruct fuel as [|fuel]; [lia|]. cbn [map concat app foldl readLoop].
    cbn [Uint8Array.of_list Uint8Array.length Uint8Array.buffer].
    destruct (Nat.eqb_spec (length tail) 0) as [?|_]; [lia|].
    by rewrite getInt32_short by lia.
  - inversion_clear Hwf as [|? ? (Hid & Hty & Hlen) Hps].
    destruct fuel as [|fuel]; [lia|].
    cbn [map concat] in *.
    change (frame_of_packet p)
      with (frame (int32_le (pid p)) (ptype p) (ppayload p)) in *.
    set (F := frame (int32_le (pid p)) (ptype p) (ppayload p)) in *.
    set (R := concat (map frame_of_packet ps)) in *.
    pose proof (readLoop_frame handle fuel (int32_le (pid p)) (ppayload p)
                  (R ++ tail) [] (ptype p) (pid p) s
                  (getInt32_int32_le_0 _ Hid) eq_refl Hlen) as E.
    fold F in E. rewrite app_nil_r in E.
    rewrite <- app_assoc. unfold Uint8Array.of_list at 1.
    rewrite length_app, E, (toInt32_id _ Hty).
    assert (HF : length F = (length (ppayload p) + 14)%nat)
      by (by apply frame_length).
    rewrite <- app_assoc, length_app in Hfuel.
    rewrite IH by (done || lia). reflexivity.
Qed.
End ShortTail.

(** X24: when a chunk read with nothing carried over holds complete frames
    of well-formed packets, at least one, and then one to three bytes of the
    next frame, [readChunk] routes the packets and then throws a
    [RangeError]: the length is read from the fresh array of the bytes left,
    which is shorter than four bytes.  The bytes left are not kept, and
    [read] ends with that exception and tears the connection down. *)
Theorem readChunk_throws_on_short_rest {JsString : Type}
    (TextDecoder_decode : list byte → JsString)
    (p : Packet) (packets : list Packet) (tail stale : list byte) (c : nat)
    (later : list Uint8Array.t) (st : @Rcon JsString) :
  Forall wf_packet (p :: packets) →
  (0 < length tail < 4)%nat →
  outstandingData st = None →
  conn st = Some c →
  let stream := concat (map frame_of_packet (p :: packets)) in
  let chunk :=
    Uint8Array.mk (stream ++ tail ++ stale) 0 (length stream + length tail) in
  readChunk TextDecoder_decode chunk st
  = (dispatchAll TextDecoder_decode (p :: packets) st, Some RangeError)
  ∧ outstandingData (dispatchAll TextDecoder_decode (p :: packets) st) = None
  ∧ (read TextDecoder_decode (chunk :: later) st).2 = Some RangeError
  ∧ conn (read TextDecoder_decode (chunk :: later) st).1 = None
  ∧ requests (read TextDecoder_decode (chunk :: later) st).1 = ∅.
Proof.
  intros Hwf Ht Hod Hc stream chunk.
  assert (E : readChunk TextDecoder_decode chunk st
              = (dispatchAll TextDecoder_decode (p :: packets) st,
                 Some RangeError)).
  { inversion_clear Hwf as [|? ? (Hid & Hty & Hlen) Hps].
    unfold readChunk, takeOutstanding. rewrite Hod.
    subst chunk stream. cbn [map concat Uint8Array.length].
    change (frame_of_packet p)
      with (frame (int32_le (pid p)) (ptype p) (ppayload p)).
    set (F := frame (int32_le (pid p)) (ptype p) (ppayload p)).
    set (R := concat (map frame_of_packet packets)).
    pose proof (readLoop_frame (dispatch TextDecoder_decode)
                  (length (F ++ R) + length tail)
                  (int32_le (pid p)) (ppayload p)
                  (R ++ tail) stale (ptype p) (pid p) st
                  (getInt32_int32_le_0 _ Hid) eq_refl Hlen) as E.
    fold F in E.
    replace (length F + length (R ++ tail))%nat
      with (length (F ++ R) + length tail)%nat in E
      by (rewrite !length_app; lia).
    rewrite <- !app_assoc in E |- *. rewrite E, (toInt32_id _ Hty).
    assert (14 ≤ length F)%nat
      by (subst F; rewrite frame_length by done; lia).
    subst R.
    rewrite readLoop_frames_short_tail; [reflexivity|done|done|].
    rewrite !length_app. lia. }
  split; [exact E|].
  split; [by rewrite dispatchAll_outstandingData|].
  assert (Hfeed : feed TextDecoder_decode (chunk :: later) st
                  = (dispatchAll TextDecoder_decode (p :: packets) st,
                     Some RangeError)).
  { cbn [feed]. by rewrite E. }
  destruct (read_tears_down_aux TextDecoder_decode (chunk :: later) c st Hc)
    as (H1 & H2 & H3).
  rewrite H3, Hfeed. done.
Qed.

Lemma readChunk_throws_on_short_rest_witness :
  let st : @Rcon (list byte) :=
    mkRcon (Some 0%nat) (Some 7%nat) None (<[5 := mkRequest [] 0]> ∅)
           [Fulfilled ()] [Pending] in
  let p := mkPacket 5 0 ["a"%byte] in
  let stream := concat (map frame_of_packet [p]) in
  let chunk :=
    Uint8Array.mk (stream ++ [x0e; x00] ++ []) 0
                  (length stream + length [x0e; x00]) in
  readChunk (λ s : list byte, s) chunk st
  = (dispatchAll (λ s : list byte, s) [p] st, Some RangeError)
  ∧ outstandingData (dispatchAll (λ s : list byte, s) [p] st) = None
  ∧ (read (λ s : list byte, s) (chunk :: []) st).2 = Some RangeError
  ∧ conn (read (λ s : list byte, s) (chunk :: []) st).1 = None
  ∧ requests (read (λ s : list byte, s) (chunk :: []) st).1 = ∅.
Proof.
  intros st p.
  apply (readChunk_throws_on_short_rest (λ s : list byte, s) p [] [x0e; x00]
           [] 7 [] st).
  - apply Forall_cons_2; [|apply Forall_nil_2].
    unfold wf_packet, is_int32. simpl. lia.
  - simpl. lia.
  - reflexivity.
  - reflexivity.
Defined.
